(** * Collaboration coordination: invitations, direct member adds, typing presence

    A shallow embedding of the route handlers of
    [app/api/collaborate/invitations/route.ts] (the invitation endpoints
    GET / POST / PUT / DELETE and, in the same file, the
    [teams/members] POST endpoint) and of the socket handlers of the
    [TeamChat] component, followed by the properties of the
    specification that concern them, and by further properties of the
    same handlers and of the [NotificationBell] component.

    The persistent store is a record of tables, each table a list of
    rows in insertion order (the rate state, which only stored
    procedures touch, is a finite map).  A handler is a function from the store
    before the request to a reply and the store after it.  What a
    handler cannot decide by itself (the clock, the keys and column
    defaults the store assigns, the errors of those store calls whose
    [error] the handler inspects) is read from an environment [Env].

    The invitation endpoints reach the store through the client of
    [createSupabaseAdmin]; the members endpoint uses the client
    [supabase], whose calls are subject to the row-level policies that
    the script of [app/api/debug-auth/route.ts] installs. *)

From stdpp Require Import base option list strings gmap sorting.
From Stdlib Require Import ZArith Lia Ascii.

Local Open Scope string_scope.
Local Open Scope Z_scope.

(** ** Rows of the store *)

Inductive Status := pending | accepted | rejected | cancelled | expired.

#[global] Instance Status_eq_dec : EqDecision Status.
Proof. solve_decision. Defined.

Definition status_name (st : Status) : string :=
  match st with
  | pending => "pending"
  | accepted => "accepted"
  | rejected => "rejected"
  | cancelled => "cancelled"
  | expired => "expired"
  end.

(** [user_profiles] *)
Record Profile := {
  profile_id : string;
  profile_email : string;
  profile_full_name : string;
}.

(** [teams]; [is_public] is read by the row-level policies only. *)
Record Team := {
  team_id : string;
  team_name : string;
  team_owner_id : string;
  team_is_public : bool;
}.

(** [team_members]; the invitation endpoint writes [joined_at], the
    members endpoint writes [created_at]. *)
Record Member := {
  member_team_id : string;
  member_user_id : string;
  member_role : string;
  member_joined_at : option Z;
  member_created_at : option Z;
}.

(** [team_invitations] *)
Record Invitation := {
  inv_id : string;
  inv_team_id : string;
  inv_inviter_id : string;
  inv_invitee_id : string;
  inv_invitee_email : string;
  inv_role : string;
  inv_personal_message : option string;
  inv_status : Status;
  inv_created_at : Z;
  inv_updated_at : Z;
  inv_expires_at : Z;
}.

(** [chat_messages] *)
Record ChatRow := {
  chat_team_id : string;
  chat_user_id : string;
  chat_content : string;
  chat_type : string;
  chat_created_at : Z;
}.

(** One call of the [create_notification] procedure: the event handed
    to the notification dispatcher (message text left out). *)
Record Notification := {
  target_user_id : string;
  notification_type : string;
  notification_title : string;
  notification_team_id : string;
  action_url : option string;
}.

Record Store := {
  user_profiles : list Profile;
  teams : list Team;
  team_members : list Member;
  team_invitations : list Invitation;
  chat_messages : list ChatRow;
  notifications : list Notification;
  (** per (user, day): the teams that user issued invitations for *)
  invitation_limits : gmap (string * Z) (gset string);
}.

Definition empty_store : Store :=
  {| user_profiles := []; teams := []; team_members := [];
     team_invitations := []; chat_messages := []; notifications := [];
     invitation_limits := ∅ |}.

#[global] Instance Profile_eq_dec : EqDecision Profile.
Proof. solve_decision. Defined.
#[global] Instance Team_eq_dec : EqDecision Team.
Proof. solve_decision. Defined.
#[global] Instance Member_eq_dec : EqDecision Member.
Proof. solve_decision. Defined.
#[global] Instance Invitation_eq_dec : EqDecision Invitation.
Proof. solve_decision. Defined.
#[global] Instance Notification_eq_dec : EqDecision Notification.
Proof. solve_decision. Defined.

(** ** The environment of one request *)

(** The store calls whose [error] a handler tests, named after the
    variable it is bound to. *)
Inductive StoreCall :=
  | ListError        (* GET: [error] of the listing query *)
  | UserError        (* POST: [userError] other than PGRST116 *)
  | InviteError      (* POST: [inviteError] *)
  | FetchError       (* PUT: [fetchError] *)
  | MemberError      (* PUT: [memberError] *)
  | UpdateError      (* PUT: [updateError] *)
  | DeleteError      (* DELETE: [deleteError] *)
  | TeamError        (* members POST: [teamError] *)
  | ProfileError     (* members POST: [userError] *)
  | CreateError      (* members POST: [createError] *)
  | AddError         (* members POST: [addError] *)
  | MessageError.    (* members POST: [messageError] *)

Record Env := {
  (** [new Date()], milliseconds *)
  now : Z;
  (** [createSupabaseAdmin()] returned a client *)
  admin_client : bool;
  (** the key the store gives a row inserted by this request *)
  fresh_id : string;
  (** the [expires_at] the store gives an invitation inserted by this
      request (a column default: the insert does not set it) *)
  default_expires_at : Z;
  (** which inspected store calls come back with an error *)
  store_error : StoreCall → bool;
  (** [error.message] of such an error *)
  error_message : string;
}.

(** The verified identity [requireAuth] returns. *)
Record AuthUser := { user_id : string }.

(** ** Replies *)

Inductive Body :=
  | Error (msg : string)
  | Invitations (rows : list Invitation)
  | Created (row : Invitation) (message : string)
  | Resolved (message action teamName : string)
  | Deleted (message : string)
  | Added (message userId userName : string).

Record Response := Reply { http_status : Z; body : Body }.

Definition is_success (r : Response) : bool :=
  match body r with Error _ => false | _ => true end.

(** The replies of the handlers under the names the specification
    gives to the failures. *)
Definition InternalServerError := Reply 500 (Error "Internal server error").
Definition ServiceConfigurationError := Reply 500 (Error "Service configuration error").
Definition PermissionDenied_assign :=
  Reply 403 (Error "You don't have permission to assign this role").
Definition InvalidRole := Reply 400 (Error "Invalid role specified").
Definition InvalidRecipient :=
  Reply 404 (Error "User not found. The user must have an account to receive invitations.").
Definition AlreadyMember := Reply 400 (Error "User is already a member of this team").
Definition DuplicatePending :=
  Reply 400 (Error "There is already a pending invitation for this user").
Definition RateLimited :=
  Reply 429 (Error "You have reached the daily invitation limit (2 teams per day)").
Definition NotFound := Reply 404 (Error "Invitation not found").
Definition PermissionDenied_cancel :=
  Reply 403 (Error "Only the inviter can cancel an invitation").
Definition PermissionDenied_respond :=
  Reply 403 (Error "Only the invitee can accept or reject an invitation").
Definition AlreadyResolved (st : Status) :=
  Reply 400 (Error ("Invitation is already " ++ status_name st)).
Definition Expired := Reply 400 (Error "Invitation has expired").

(** ** Query helpers *)

(** [.single()]: the row when exactly one matches, no data otherwise. *)
Definition single {A} (rows : list A) : option A :=
  match rows with
  | [x] => Some x
  | _ => None
  end.

(** JavaScript truthiness of a request field that is a string or
    missing: [!field] holds for [undefined] and for the empty string. *)
Definition truthy (field : option string) : bool :=
  match field with
  | Some s => negb (String.eqb s EmptyString)
  | None => false
  end.

(** [\s] on code points below 256. *)
Definition is_space (c : ascii) : bool :=
  bool_decide (Ascii.nat_of_ascii c ∈ [9; 10; 11; 12; 13; 32; 160]%nat).

(** The class [[^\s@]]. *)
Definition plain (c : ascii) : bool :=
  negb (is_space c) && negb (Ascii.eqb c "@"%char).

(** The text before and after the first occurrence of [sep]. *)
Fixpoint split_first (sep : ascii) (l : list ascii) : option (list ascii * list ascii) :=
  match l with
  | [] => None
  | c :: l' =>
      if Ascii.eqb c sep then Some ([], l')
      else match split_first sep l' with
           | Some (a, b) => Some (c :: a, b)
           | None => None
           end
  end.

(** A dot that is neither the first nor the last character. *)
Definition has_inner_dot (l : list ascii) : bool :=
  match l with
  | [] => false
  | _ :: l' => existsb (λ c, Ascii.eqb c "."%char) (removelast l')
  end.

(** [/^[^\s@]+@[^\s@]+\.[^\s@]+$/.test(s)]: no blank and exactly one
    [@], something before it, and after it a dot with something on
    both sides. *)
Definition emailRegex_test (s : string) : bool :=
  match split_first "@"%char (String.list_ascii_of_string s) with
  | Some (a, r) =>
      negb (bool_decide (a = [])) && forallb plain a && forallb plain r && has_inner_dot r
  | None => false
  end.

(** ** Procedures of the store that are not in the sources *)

Module Authority.

(** Modelled from the spec: the fixed order
    owner > admin > editor > viewer, as a number per role. *)
Definition rank (role : string) : Z :=
  if decide (role = "owner") then 4
  else if decide (role = "admin") then 3
  else if decide (role = "editor") then 2
  else if decide (role = "viewer") then 1
  else 0.

(** Modelled from the spec: [user] is the owner of [team]. *)
Definition is_owner (s : Store) (team user : string) : bool :=
  bool_decide (Exists (λ t, team_id t = team ∧ team_owner_id t = user) (teams s)).

(** Modelled from the spec: [roleOf(teamId, userId) -> Role | none]. *)
Definition roleOf (s : Store) (team user : string) : option string :=
  member_role <$>
    head (filter (λ m, member_team_id m = team ∧ member_user_id m = user) (team_members s)).

(** Modelled from the spec: the stored procedure [can_assign_role] is
    called by the invitation POST handler and is not in the sources.
    True iff the acting user is the team owner, or the acting user's
    own role in the team outranks the target role under
    owner > admin > editor > viewer and the acting user holds at
    least admin. *)
Definition can_assign_role (s : Store) (team user target : string) : bool :=
  is_owner s team user
  || match roleOf s team user with
     | Some r => bool_decide (rank target < rank r) && bool_decide (3 ≤ rank r)
     | None => false
     end.

End Authority.

Module RateLimit.

Definition ms_per_day : Z := 86400000.

(** Modelled from the spec: the day of the rate state, taken as the
    calendar day (UTC) of the clock reading. *)
Definition day_of (t : Z) : Z := t `div` ms_per_day.

(** Modelled from the spec: the InvitationRateState of (user, day),
    the distinct teams [user] has issued invitations for on [day]. *)
Definition teams_invited (s : Store) (user : string) (day : Z) : gset string :=
  default ∅ (invitation_limits s !! (user, day)).

(** Modelled from the spec: the stored procedure
    [check_invitation_limit] is not in the sources.  The invitation is
    refused when the rate state of (inviter, today) has already
    reached 2 distinct teams and the team is not among them. *)
Definition check_invitation_limit (s : Store) (user team : string) (day : Z) : bool :=
  negb (bool_decide (2 ≤ size (teams_invited s user day))%nat
        && bool_decide (team ∉ teams_invited s user day)).

(** Modelled from the spec: the stored procedure
    [update_invitation_limit] is not in the sources.  It counts the
    team among the distinct teams of (inviter, today). *)
Definition update_invitation_limit (s : Store) (user team : string) (day : Z) : Store :=
  {| user_profiles := user_profiles s; teams := teams s;
     team_members := team_members s; team_invitations := team_invitations s;
     chat_messages := chat_messages s; notifications := notifications s;
     invitation_limits :=
       <[(user, day) := {[team]} ∪ teams_invited s user day]> (invitation_limits s) |}.

End RateLimit.

(** ** Row-level security

    The policies that the script of [app/api/debug-auth/route.ts]
    installs on [teams] and [team_members] (it enables row-level
    security on both).  They restrain the calls of the client
    [supabase], which the members endpoint uses; the client of
    [createSupabaseAdmin] is not subject to them.  [uid] is
    [auth.uid()]: the user whose session the client carries, [None]
    (SQL's NULL) when it carries none.  A comparison with NULL is not
    true, so [None] satisfies no policy. *)

Module Policy.

(** [is_team_member(team_uuid, user_uuid)]; a SECURITY DEFINER
    function, it reads [team_members] unrestrained. *)
Definition is_team_member (s : Store) (team user : string) : Prop :=
  Exists (λ m, member_team_id m = team ∧ member_user_id m = user) (team_members s).

(** [EXISTS (SELECT 1 FROM teams WHERE teams.id = team_id
    AND teams.owner_id = auth.uid())]; the rows of [teams] that [user]
    owns are visible to [user]. *)
Definition owns (s : Store) (user team : string) : Prop :=
  Exists (λ t, team_id t = team ∧ team_owner_id t = user) (teams s).

(** [EXISTS (SELECT 1 FROM teams WHERE teams.id = team_id
    AND teams.is_public = true)]; public teams are visible to every
    user with a session. *)
Definition is_public (s : Store) (team : string) : Prop :=
  Exists (λ t, team_id t = team ∧ team_is_public t = true) (teams s).

(** [teams_select_policy]:
    [(is_public = true AND auth.uid() IS NOT NULL)
     OR owner_id = auth.uid() OR is_team_member(id, auth.uid())]. *)
Definition teams_select (s : Store) (uid : option string) (t : Team) : Prop :=
  match uid with
  | Some u =>
      team_is_public t = true ∨ team_owner_id t = u ∨ is_team_member s (team_id t) u
  | None => False
  end.

(** [team_members_select_policy]: the rows of the teams [uid] owns, and
    the rows of [uid]. *)
Definition team_members_select (s : Store) (uid : option string) (m : Member) : Prop :=
  match uid with
  | Some u => owns s u (member_team_id m) ∨ member_user_id m = u
  | None => False
  end.

(** [team_members_insert_policy]: "Allow team owners to add members",
    "Allow users to add themselves to public teams". *)
Definition team_members_insert (s : Store) (uid : option string) (m : Member) : Prop :=
  match uid with
  | Some u =>
      owns s u (member_team_id m)
      ∨ (member_user_id m = u ∧ is_public s (member_team_id m))
  | None => False
  end.

#[global] Instance is_team_member_dec s team user : Decision (is_team_member s team user).
Proof. unfold is_team_member. apply _. Defined.
#[global] Instance owns_dec s user team : Decision (owns s user team).
Proof. unfold owns. apply _. Defined.
#[global] Instance is_public_dec s team : Decision (is_public s team).
Proof. unfold is_public. apply _. Defined.
#[global] Instance teams_select_dec s uid t : Decision (teams_select s uid t).
Proof. destruct uid; apply _. Defined.
#[global] Instance team_members_select_dec s uid m : Decision (team_members_select s uid m).
Proof. destruct uid; apply _. Defined.
#[global] Instance team_members_insert_dec s uid m : Decision (team_members_insert s uid m).
Proof. destruct uid; apply _. Defined.

End Policy.

(** ** Table updates *)

Definition set_invitations (rows : list Invitation) (s : Store) : Store :=
  {| user_profiles := user_profiles s; teams := teams s;
     team_members := team_members s; team_invitations := rows;
     chat_messages := chat_messages s; notifications := notifications s;
     invitation_limits := invitation_limits s |}.

Definition insert_member (m : Member) (s : Store) : Store :=
  {| user_profiles := user_profiles s; teams := teams s;
     team_members := team_members s ++ [m]; team_invitations := team_invitations s;
     chat_messages := chat_messages s; notifications := notifications s;
     invitation_limits := invitation_limits s |}.

Definition insert_profile (p : Profile) (s : Store) : Store :=
  {| user_profiles := user_profiles s ++ [p]; teams := teams s;
     team_members := team_members s; team_invitations := team_invitations s;
     chat_messages := chat_messages s; notifications := notifications s;
     invitation_limits := invitation_limits s |}.

Definition insert_chat_message (c : ChatRow) (s : Store) : Store :=
  {| user_profiles := user_profiles s; teams := teams s;
     team_members := team_members s; team_invitations := team_invitations s;
     chat_messages := chat_messages s ++ [c]; notifications := notifications s;
     invitation_limits := invitation_limits s |}.

(** [rpc('create_notification', ...)] *)
Definition create_notification (n : Notification) (s : Store) : Store :=
  {| user_profiles := user_profiles s; teams := teams s;
     team_members := team_members s; team_invitations := team_invitations s;
     chat_messages := chat_messages s; notifications := notifications s ++ [n];
     invitation_limits := invitation_limits s |}.

Definition insert_invitation (i : Invitation) (s : Store) : Store :=
  set_invitations (team_invitations s ++ [i]) s.

(** [.update(fields).eq('id', id)], for the columns [status] and
    [updated_at]: a column absent from [fields] keeps its value. *)
Definition set_fields (st : option Status) (updated : option Z) (i : Invitation) : Invitation :=
  {| inv_id := inv_id i; inv_team_id := inv_team_id i;
     inv_inviter_id := inv_inviter_id i; inv_invitee_id := inv_invitee_id i;
     inv_invitee_email := inv_invitee_email i; inv_role := inv_role i;
     inv_personal_message := inv_personal_message i;
     inv_status := default (inv_status i) st;
     inv_created_at := inv_created_at i;
     inv_updated_at := default (inv_updated_at i) updated;
     inv_expires_at := inv_expires_at i |}.

Definition update_invitation (id : string) (st : option Status) (updated : option Z)
    (s : Store) : Store :=
  set_invitations
    ((λ i, if decide (inv_id i = id) then set_fields st updated i else i)
       <$> team_invitations s) s.

(** [.delete().eq('id', id)] *)
Definition delete_invitation (id : string) (s : Store) : Store :=
  set_invitations (filter (λ i, inv_id i ≠ id) (team_invitations s)) s.

(** [field || fallback] *)
Definition or_else (field : option string) (fallback : string) : string :=
  match field with
  | Some s => if String.eqb s EmptyString then fallback else s
  | None => fallback
  end.

(** ** The invitation endpoints *)

Module Invitations.

Record ListQuery := { type : option string; status : option string }.

Record CreateBody := {
  teamId : option string;
  inviteeEmail : option string;
  role : option string;
  personalMessage : option string;
}.

Record ResolveBody := {
  invitationId : option string;
  action : option string;
  response : option string;
}.

(** [.eq('id', id).single()] on [team_invitations] *)
Definition invitation_by_id (s : Store) (id : string) : option Invitation :=
  single (filter (λ i, inv_id i = id) (team_invitations s)).

(** [.eq('team_id', team).eq('invitee_id', invitee).eq('status', 'pending')] *)
Definition pending_for (s : Store) (team invitee : string) : list Invitation :=
  filter (λ i, inv_team_id i = team ∧ inv_invitee_id i = invitee ∧ inv_status i = pending)
         (team_invitations s).

Definition member_rows (s : Store) (team user : string) : list Member :=
  filter (λ m, member_team_id m = team ∧ member_user_id m = user) (team_members s).

Definition team_by_id (s : Store) (id : string) : option Team :=
  single (filter (λ t, team_id t = id) (teams s)).

Definition profile_by_email (s : Store) (email : string) : option Profile :=
  single (filter (λ p, profile_email p = email) (user_profiles s)).

(** [.order('created_at', { ascending: false })] *)
Definition newest_first (a b : Invitation) : Prop :=
  inv_created_at b ≤ inv_created_at a.

#[global] Instance newest_first_dec : RelDecision newest_first.
Proof. intros a b. unfold newest_first. apply _. Defined.

(** GET: the invitations the user sent or received, newest first,
    with the status the store holds. *)
Definition GET (auth : option AuthUser) (q : ListQuery) (env : Env) (s : Store)
    : Response * Store :=
  match auth with
  | None => (InternalServerError, s)
  | Some user =>
      let type := or_else (type q) "all" in
      let status := or_else (status q) "all" in
      if negb (admin_client env) then (ServiceConfigurationError, s)
      else
        let by_type :=
          if decide (type = "sent") then
            filter (λ i, inv_inviter_id i = user_id user) (team_invitations s)
          else if decide (type = "received") then
            filter (λ i, inv_invitee_id i = user_id user) (team_invitations s)
          else
            filter (λ i, inv_inviter_id i = user_id user ∨ inv_invitee_id i = user_id user)
                   (team_invitations s) in
        let by_status :=
          if decide (status = "all") then by_type
          else filter (λ i, status_name (inv_status i) = status) by_type in
        if store_error env ListError
        then (Reply 500 (Error "Failed to fetch invitations"), s)
        else
          (Reply 200 (Invitations
             (merge_sort newest_first by_status)), s)
  end.

(** POST: create an invitation. *)
Definition POST (auth : option AuthUser) (req : CreateBody) (env : Env) (s : Store)
    : Response * Store :=
  match auth with
  | None => (InternalServerError, s)
  | Some user =>
      let role := default "viewer" (role req) in
      match teamId req, inviteeEmail req with
      | Some team, Some email =>
          if negb (truthy (teamId req)) || negb (truthy (inviteeEmail req))
          then (Reply 400 (Error "Team ID and invitee email are required"), s)
          else if negb (bool_decide (role ∈ ["viewer"; "editor"; "admin"]))
          then (InvalidRole, s)
          else if negb (emailRegex_test email)
          then (Reply 400 (Error "Invalid email format"), s)
          else if negb (admin_client env) then (ServiceConfigurationError, s)
          else if negb (Authority.can_assign_role s team (user_id user) role)
          then (PermissionDenied_assign, s)
          else if store_error env UserError
          then (Reply 500 (Error "Database error"), s)
          else
            match profile_by_email s email with
            | None => (InvalidRecipient, s)
            | Some inviteeUser =>
                match single (member_rows s team (profile_id inviteeUser)) with
                | Some _ => (AlreadyMember, s)
                | None =>
                    match single (pending_for s team (profile_id inviteeUser)) with
                    | Some _ => (DuplicatePending, s)
                    | None =>
                        if negb (RateLimit.check_invitation_limit
                                   s (user_id user) team (RateLimit.day_of (now env)))
                        then (RateLimited, s)
                        else
                          match team_by_id s team with
                          | None => (Reply 404 (Error "Team not found"), s)
                          | Some t =>
                              if store_error env InviteError
                              then (Reply 500 (Error "Failed to create invitation"), s)
                              else
                                let invitation :=
                                  {| inv_id := fresh_id env;
                                     inv_team_id := team;
                                     inv_inviter_id := user_id user;
                                     inv_invitee_id := profile_id inviteeUser;
                                     inv_invitee_email := email;
                                     inv_role := role;
                                     inv_personal_message := personalMessage req;
                                     inv_status := pending;
                                     inv_created_at := now env;
                                     inv_updated_at := now env;
                                     inv_expires_at := default_expires_at env |} in
                                let s1 := insert_invitation invitation s in
                                let s2 := RateLimit.update_invitation_limit
                                            s1 (user_id user) team
                                            (RateLimit.day_of (now env)) in
                                let s3 := create_notification
                                            {| target_user_id := profile_id inviteeUser;
                                               notification_type := "team_invitation";
                                               notification_title :=
                                                 "Team Invitation: " ++ team_name t;
                                               notification_team_id := team;
                                               action_url :=
                                                 Some ("/collaborate?invitation="
                                                         ++ inv_id invitation) |} s2 in
                                (Reply 200 (Created invitation
                                              ("Invitation sent to " ++ email)), s3)
                          end
                    end
                end
            end
      | _, _ => (Reply 400 (Error "Team ID and invitee email are required"), s)
      end
  end.

(** PUT: accept, reject or cancel an invitation. *)
Definition PUT (auth : option AuthUser) (req : ResolveBody) (env : Env) (s : Store)
    : Response * Store :=
  match auth with
  | None => (InternalServerError, s)
  | Some user =>
      match invitationId req, action req with
      | Some id, Some act =>
          if negb (truthy (invitationId req)) || negb (truthy (action req))
          then (Reply 400 (Error "Invitation ID and action are required"), s)
          else if negb (bool_decide (act ∈ ["accept"; "reject"; "cancel"]))
          then (Reply 400 (Error "Invalid action. Must be 'accept', 'reject', or 'cancel'"), s)
          else if negb (admin_client env) then (ServiceConfigurationError, s)
          else
            match (if store_error env FetchError then None else invitation_by_id s id) with
            | None => (NotFound, s)
            | Some invitation =>
                if bool_decide (act = "cancel")
                   && bool_decide (inv_inviter_id invitation ≠ user_id user)
                then (PermissionDenied_cancel, s)
                else if (bool_decide (act = "accept") || bool_decide (act = "reject"))
                        && bool_decide (inv_invitee_id invitation ≠ user_id user)
                then (PermissionDenied_respond, s)
                else if bool_decide (inv_status invitation ≠ pending)
                then (AlreadyResolved (inv_status invitation), s)
                else if bool_decide (inv_expires_at invitation < now env)
                then (Expired, update_invitation id (Some expired) None s)
                else
                  (* the update that ends every action, and the reply *)
                  let conclude (st : option Status) (t : Team) (s' : Store) :=
                    if store_error env UpdateError
                    then (Reply 500 (Error "Failed to update invitation"), s')
                    else (Reply 200 (Resolved ("Invitation " ++ act ++ "ed successfully")
                                       act (team_name t)),
                          update_invitation id st (Some (now env)) s') in
                  (* [invitation.team], the team joined to the fetched row *)
                  let team := team_by_id s (inv_team_id invitation) in
                  if decide (act = "accept") then
                    if store_error env MemberError
                    then (Reply 500 (Error "Failed to add you to the team"), s)
                    else
                      let s1 := insert_member
                                  {| member_team_id := inv_team_id invitation;
                                     member_user_id := inv_invitee_id invitation;
                                     member_role := inv_role invitation;
                                     member_joined_at := Some (now env);
                                     member_created_at := None |} s in
                      match team with
                      | None => (InternalServerError, s1)
                      | Some t =>
                          conclude (Some accepted) t
                            (create_notification
                               {| target_user_id := inv_inviter_id invitation;
                                  notification_type := "member_added";
                                  notification_title := "Invitation Accepted";
                                  notification_team_id := inv_team_id invitation;
                                  action_url :=
                                    Some ("/collaborate?team=" ++ inv_team_id invitation) |}
                               s1)
                      end
                  else if decide (act = "reject") then
                    match team with
                    | None => (InternalServerError, s)
                    | Some t =>
                        conclude (Some rejected) t
                          (create_notification
                             {| target_user_id := inv_inviter_id invitation;
                                notification_type := "invitation_rejected";
                                notification_title := "Invitation Declined";
                                notification_team_id := inv_team_id invitation;
                                action_url := None |} s)
                    end
                  else if decide (act = "cancel") then
                    match team with
                    | None => (InternalServerError, s)
                    | Some t =>
                        conclude (Some cancelled) t
                          (create_notification
                             {| target_user_id := inv_invitee_id invitation;
                                notification_type := "invitation_cancelled";
                                notification_title := "Invitation Cancelled";
                                notification_team_id := inv_team_id invitation;
                                action_url := None |} s)
                    end
                  else
                    match team with
                    | None => (InternalServerError, s)
                    | Some t => conclude None t s
                    end
            end
      | _, _ => (Reply 400 (Error "Invitation ID and action are required"), s)
      end
  end.

(** DELETE: the inviter removes an invitation, whatever its status. *)
Definition DELETE (auth : option AuthUser) (invitationId : option string) (env : Env)
    (s : Store) : Response * Store :=
  match auth with
  | None => (InternalServerError, s)
  | Some user =>
      match invitationId with
      | Some id =>
          if negb (truthy invitationId)
          then (Reply 400 (Error "Invitation ID is required"), s)
          else if negb (admin_client env) then (ServiceConfigurationError, s)
          else
            match invitation_by_id s id with
            | None => (NotFound, s)
            | Some invitation =>
                if bool_decide (inv_inviter_id invitation ≠ user_id user)
                then (Reply 403 (Error "Only the inviter can delete an invitation"), s)
                else if store_error env DeleteError
                then (Reply 500 (Error "Failed to delete invitation"), s)
                else (Reply 200 (Deleted "Invitation deleted successfully"),
                      delete_invitation id s)
            end
      | None => (Reply 400 (Error "Invitation ID is required"), s)
      end
  end.

End Invitations.

(** ** The members endpoint: [POST /api/collaborate/teams/members] *)

Module Members.

Record AddBody := {
  teamId : option string;
  email : option string;
  role : option string;
}.

(** [c.toUpperCase()] of a character below 256: the letters a to z
    and the Latin-1 letters U+00E0 to U+00FE (U+00F7, the division
    sign, is no letter) move down by 32.  The upper case of U+00B5,
    U+00DF and U+00FF is no single character below 256: the model
    leaves these three as they are, and so does not give the name
    JavaScript generates for an address that starts with one of
    them. *)
Definition toUpperCase (c : ascii) : ascii :=
  let n := Ascii.nat_of_ascii c in
  if bool_decide (97 ≤ n ≤ 122 ∨ (224 ≤ n ≤ 254 ∧ n ≠ 247))%nat
  then Ascii.ascii_of_nat (n - 32) else c.

(** [email.split('@')[0]] *)
Definition local_part (email : string) : list ascii :=
  match split_first "@"%char (String.list_ascii_of_string email) with
  | Some (a, _) => a
  | None => String.list_ascii_of_string email
  end.

(** [local.charAt(0).toUpperCase() + local.slice(1)] *)
Definition generatedName (email : string) : string :=
  match local_part email with
  | [] => EmptyString
  | c :: rest => String.string_of_list_ascii (toUpperCase c :: rest)
  end.

(** [.from('teams').select('*').eq('id', teamId).single()] through
    the client [supabase]: among the rows the policy shows. *)
Definition visible_team (s : Store) (uid : option string) (team : string) : option Team :=
  single (filter (λ t, team_id t = team ∧ Policy.teams_select s uid t) (teams s)).

(** [.from('team_members').select('*').eq('team_id', teamId)
    .eq('user_id', userId).single()], likewise. *)
Definition visible_member (s : Store) (uid : option string) (team user : string)
    : option Member :=
  single (filter (Policy.team_members_select s uid) (Invitations.member_rows s team user)).

(** POST: add a member to a team.  The handler takes no identity: it
    neither calls [requireAuth] nor asks the role authority.  Its
    store calls go through the client [supabase]: [uid] is the user
    the store takes them to come from.  The script installs no policy
    on [user_profiles], and its policy on [chat_messages] compares a
    column, [sender_id], that the insert of the system message does
    not set: what the store answers to these calls is read from the
    environment. *)
Definition POST (uid : option string) (req : AddBody) (env : Env) (s : Store)
    : Response * Store :=
  let role := default "viewer" (role req) in
  match teamId req, email req with
  | Some team, Some email =>
      if negb (truthy (teamId req)) || negb (truthy (Members.email req))
      then (Reply 400 (Error "Team ID and email are required"), s)
      else
        match (if store_error env TeamError then None else visible_team s uid team) with
        | None => (Reply 404 (Error "Team not found"), s)
        | Some _ =>
            let user := if store_error env ProfileError then None
                        else Invitations.profile_by_email s email in
            (* the account to add: the one found, or a placeholder created now *)
            let account :=
              match user with
              | Some u => Some (profile_id u, profile_full_name u, s)
              | None =>
                  if store_error env CreateError then None
                  else Some (fresh_id env, generatedName email,
                             insert_profile
                               {| profile_id := fresh_id env;
                                  profile_email := email;
                                  profile_full_name := generatedName email |} s)
              end in
            match account with
            | None => (Reply 500 (Error "Failed to create user"), s)
            | Some (userId, userName, s1) =>
                match visible_member s1 uid team userId with
                | Some _ => (AlreadyMember, s1)
                | None =>
                    let row := {| member_team_id := team;
                                  member_user_id := userId;
                                  member_role := role;
                                  member_joined_at := None;
                                  member_created_at := Some (now env) |} in
                    (* [addError]: the insert policy refuses the row, or another error *)
                    if store_error env AddError
                       || negb (bool_decide (Policy.team_members_insert s1 uid row))
                    then (Reply 500 (Error (error_message env)), s1)
                    else
                      let s2 := insert_member row s1 in
                      let s3 := if store_error env MessageError then s2
                                else insert_chat_message
                                       {| chat_team_id := team;
                                          chat_user_id := "system";
                                          chat_content := userName ++ " joined the team";
                                          chat_type := "system";
                                          chat_created_at := now env |} s2 in
                      (Reply 200 (Added "Member added successfully" userId userName), s3)
                end
            end
        end
  | _, _ => (Reply 400 (Error "Team ID and email are required"), s)
  end.

End Members.

(** ** Requests in sequence *)

Inductive Request :=
  | ListInvitations (auth : option AuthUser) (q : Invitations.ListQuery)
  | CreateInvitation (auth : option AuthUser) (req : Invitations.CreateBody)
  | ResolveInvitation (auth : option AuthUser) (req : Invitations.ResolveBody)
  | DeleteInvitation (auth : option AuthUser) (invitationId : option string)
  | AddMember (uid : option string) (req : Members.AddBody).

Definition handle (r : Request) (env : Env) (s : Store) : Response * Store :=
  match r with
  | ListInvitations auth q => Invitations.GET auth q env s
  | CreateInvitation auth req => Invitations.POST auth req env s
  | ResolveInvitation auth req => Invitations.PUT auth req env s
  | DeleteInvitation auth id => Invitations.DELETE auth id env s
  | AddMember uid req => Members.POST uid req env s
  end.

(** The store after a sequence of requests, each served in its own
    environment, one after the other. *)
Fixpoint run (trace : list (Request * Env)) (s : Store) : Store :=
  match trace with
  | [] => s
  | (r, env) :: rest => run rest (handle r env s).2
  end.

(** The calls a handler inspects all succeed and the admin client is
    configured. *)
Definition healthy (env : Env) : Prop :=
  admin_client env = true ∧ ∀ c, store_error env c = false.

(** At most one pending invitation per (team, invitee). *)
Definition one_pending_per_pair (s : Store) : Prop :=
  ∀ team invitee, (length (Invitations.pending_for s team invitee) ≤ 1)%nat.

(** The checks of the invitation POST that come before the lookup of
    the recipient: both fields present, an assignable role, a well
    formed address, a configured client, the role authority granting
    the assignment, and a store that answers the lookup. *)
Definition create_wellformed (user : AuthUser) (req : Invitations.CreateBody) (env : Env)
    (s : Store) (team email : string) : Prop :=
  Invitations.teamId req = Some team ∧ Invitations.inviteeEmail req = Some email
  ∧ team ≠ EmptyString ∧ email ≠ EmptyString
  ∧ default "viewer" (Invitations.role req) ∈ ["viewer"; "editor"; "admin"]
  ∧ emailRegex_test email = true
  ∧ admin_client env = true
  ∧ Authority.can_assign_role s team (user_id user)
      (default "viewer" (Invitations.role req)) = true
  ∧ store_error env UserError = false.

(** The checks that come before the one for a pending duplicate: the
    above, and the address is that of [invitee], who is not a member of
    the team. *)
Definition create_eligible (user : AuthUser) (req : Invitations.CreateBody) (env : Env)
    (s : Store) (team email : string) (invitee : Profile) : Prop :=
  create_wellformed user req env s team email
  ∧ Invitations.profile_by_email s email = Some invitee
  ∧ single (Invitations.member_rows s team (profile_id invitee)) = None.

(** The steps of the invitation PUT up to the fetch: both fields
    present, a known action, a configured client, and the store
    answering the fetch with the one invitation stored under the id. *)
Definition resolve_fetches (req : Invitations.ResolveBody) (env : Env) (s : Store)
    (id act : string) (invitation : Invitation) : Prop :=
  Invitations.invitationId req = Some id ∧ Invitations.action req = Some act
  ∧ id ≠ EmptyString ∧ act ∈ ["accept"; "reject"; "cancel"]
  ∧ admin_client env = true
  ∧ store_error env FetchError = false
  ∧ Invitations.invitation_by_id s id = Some invitation.

(** Who may perform an action: the inviter cancels, the invitee
    accepts or rejects. *)
Definition entitled (user : AuthUser) (act : string) (invitation : Invitation) : Prop :=
  (act = "cancel" → inv_inviter_id invitation = user_id user)
  ∧ (act = "accept" ∨ act = "reject" → inv_invitee_id invitation = user_id user).

#[global] Instance entitled_dec user act invitation : Decision (entitled user act invitation).
Proof. unfold entitled. apply _. Defined.

(** The invitation stored under [id] is no longer pending. *)
Definition settled (s : Store) (id : string) : Prop :=
  ∃ invitation,
    Invitations.invitation_by_id s id = Some invitation ∧ inv_status invitation ≠ pending.

(** [s] is the store right after a successful resolve of [id]. *)
Definition just_resolved (s : Store) (id : string) : Prop :=
  ∃ auth req env s0,
    Invitations.invitationId req = Some id
    ∧ is_success (Invitations.PUT auth req env s0).1 = true
    ∧ s = (Invitations.PUT auth req env s0).2.

(** The membership row and the notification of an accepted invitation. *)
Definition accepted_member (invitation : Invitation) (env : Env) : Member :=
  {| member_team_id := inv_team_id invitation;
     member_user_id := inv_invitee_id invitation;
     member_role := inv_role invitation;
     member_joined_at := Some (now env);
     member_created_at := None |}.

Definition member_added (invitation : Invitation) : Notification :=
  {| target_user_id := inv_inviter_id invitation;
     notification_type := "member_added";
     notification_title := "Invitation Accepted";
     notification_team_id := inv_team_id invitation;
     action_url := Some ("/collaborate?team=" ++ inv_team_id invitation) |}.


(** ** Typing presence in the [TeamChat] component *)

Module TeamChat.

(** Payload of a [SocketEvent.TYPING] event. *)
Record TypingData := {
  data_userId : string;
  data_teamId : string;
  data_isTyping : bool;
}.

Record ChatMessage := {
  id : string;
  senderId : string;
  senderName : string;
  content : string;
  timestamp : string;
  teamId : string;
  type : string;
}.

(** Payload of a [SocketEvent.NEW_MESSAGE] event; [msg_type] may be
    missing. *)
Record MessageData := {
  msg_id : string;
  msg_senderId : string;
  msg_senderName : string;
  msg_content : string;
  msg_timestamp : string;
  msg_teamId : string;
  msg_type : option string;
}.

(** A timer armed by [setTimeout]: its handle, the clock reading at
    which it is due, and the sender whose indicator its callback
    clears. *)
Record Timer := {
  handle : positive;
  due : Z;
  sender : string;
}.

(** The state of one mounted component. *)
Record State := {
  messages : list ChatMessage;
  (** [isTyping], the React state *)
  isTyping : gmap string bool;
  (** [typingTimeoutsRef.current] *)
  typingTimeouts : gmap string positive;
  (** the timers armed and neither fired nor cleared *)
  timers : list Timer;
  (** the handle the next [setTimeout] returns *)
  next_handle : positive;
  (** milliseconds *)
  clock : Z;
  (** [team.id] and [user?.id] as the handlers subscribed by the last
      run of the socket effect have captured them *)
  room : string;
  self : option string;
}.

(** The component after its mount: the socket effect has run for
    [team] and [me]. *)
Definition init (team : string) (me : option string) : State :=
  {| messages := []; isTyping := ∅; typingTimeouts := ∅; timers := [];
     next_handle := 1%positive; clock := 0; room := team; self := me |}.

(** [setIsTyping(prev => ({ ...prev, [user]: value }))] *)
Definition setIsTyping (user : string) (value : bool) (st : State) : State :=
  {| messages := messages st; isTyping := <[user := value]> (isTyping st);
     typingTimeouts := typingTimeouts st; timers := timers st;
     next_handle := next_handle st; clock := clock st;
     room := room st; self := self st |}.

Definition clearTimeout (h : positive) (st : State) : State :=
  {| messages := messages st; isTyping := isTyping st;
     typingTimeouts := typingTimeouts st;
     timers := filter (λ tm, handle tm ≠ h) (timers st);
     next_handle := next_handle st; clock := clock st;
     room := room st; self := self st |}.

(** [typingTimeoutsRef.current[user] = setTimeout(() =>
    setIsTyping(prev => ({ ...prev, [user]: false })), delay)] *)
Definition setTimeout (user : string) (delay : Z) (st : State) : State :=
  {| messages := messages st; isTyping := isTyping st;
     typingTimeouts := <[user := next_handle st]> (typingTimeouts st);
     timers := timers st ++ [{| handle := next_handle st;
                                due := clock st + delay;
                                sender := user |}];
     next_handle := Pos.succ (next_handle st); clock := clock st;
     room := room st; self := self st |}.

Definition setMessages (m : ChatMessage) (st : State) : State :=
  {| messages := messages st ++ [m]; isTyping := isTyping st;
     typingTimeouts := typingTimeouts st; timers := timers st;
     next_handle := next_handle st; clock := clock st;
     room := room st; self := self st |}.

(** The clock reaches [t]: every timer due by then runs its callback
    and is gone. *)
Definition advance (t : Z) (st : State) : State :=
  let t' := Z.max (clock st) t in
  {| messages := messages st;
     isTyping := foldl (λ m tm, <[sender tm := false]> m) (isTyping st)
                       (filter (λ tm, due tm ≤ t') (timers st));
     typingTimeouts := typingTimeouts st;
     timers := filter (λ tm, ¬ due tm ≤ t') (timers st);
     next_handle := next_handle st; clock := t';
     room := room st; self := self st |}.

Section Component.

(** [team.id] and [user?.id] of the component. *)
Variable team : string.
Variable me : option string.

Definition handleNewMessage (data : MessageData) (st : State) : State :=
  if decide (msg_teamId data = team) then
    let st1 := setMessages
                 {| id := msg_id data; senderId := msg_senderId data;
                    senderName := msg_senderName data; content := msg_content data;
                    timestamp := msg_timestamp data; teamId := msg_teamId data;
                    type := or_else (msg_type data) "text" |} st in
    match typingTimeouts st1 !! msg_senderId data with
    | Some h => setIsTyping (msg_senderId data) false (clearTimeout h st1)
    | None => st1
    end
  else st.

Definition handleTyping (data : TypingData) (st : State) : State :=
  if bool_decide (data_teamId data = team) && bool_decide (Some (data_userId data) ≠ me)
  then
    let st1 := setIsTyping (data_userId data) (data_isTyping data) st in
    let st2 := match typingTimeouts st1 !! data_userId data with
               | Some h => clearTimeout h st1
               | None => st1
               end in
    if data_isTyping data then setTimeout (data_userId data) 3000 st2 else st2
  else st.

End Component.

(** The cleanup of the socket effect:
    [Object.values(typingTimeoutsRef.current).forEach(timeout =>
    clearTimeout(timeout))].  The registrations and [isTyping] stay
    as they are. *)
Definition cleanup (st : State) : State :=
  foldl (λ st h, clearTimeout h st) st (map_to_list (typingTimeouts st)).*2.

(** The socket effect runs: it subscribes handlers that see [team] and
    [me]. *)
Definition subscribe (team : string) (me : option string) (st : State) : State :=
  {| messages := messages st; isTyping := isTyping st;
     typingTimeouts := typingTimeouts st; timers := timers st;
     next_handle := next_handle st; clock := clock st;
     room := team; self := me |}.

(** What happens to a mounted component: a socket event arrives, or a
    dependency of the socket effect ([socket], [team?.id],
    [user?.id], [loadMessages]) has changed and React runs the cleanup
    of the effect and then the effect again, which subscribes
    handlers with [team.id] and [user?.id] as they are now (a socket
    and a team being there). *)
Inductive Event :=
  | TYPING (data : TypingData)
  | NEW_MESSAGE (data : MessageData)
  | EFFECT_RERUN (team : string) (me : option string).

(** The user a socket event comes from. *)
Definition origin (ev : Event) : option string :=
  match ev with
  | TYPING data => Some (data_userId data)
  | NEW_MESSAGE data => Some (msg_senderId data)
  | EFFECT_RERUN _ _ => None
  end.

(** Something happens when the clock reads [t]: the timers due by
    then have run; then the handler of the event runs, or the effect
    is cleaned up and run again. *)
Definition receive (tev : Z * Event) (st : State) : State :=
  let st' := advance tev.1 st in
  match tev.2 with
  | TYPING data => handleTyping (room st') (self st') data st'
  | NEW_MESSAGE data => handleNewMessage (room st') data st'
  | EFFECT_RERUN team me => subscribe team me (cleanup st')
  end.

Definition receive_all (evs : list (Z * Event)) (st : State) : State :=
  foldl (λ st tev, receive tev st) st evs.

(** What the component shows for [user] when the clock reads [t]. *)
Definition observes (t : Z) (st : State) (user : string) : option bool :=
  isTyping (advance t st) !! user.

(** Bookkeeping of the timers: an armed timer is the one registered
    for its sender, and registered handles have been handed out. *)
Definition wf (st : State) : Prop :=
  (∀ tm, tm ∈ timers st → typingTimeouts st !! sender tm = Some (handle tm))
  ∧ (∀ u h, typingTimeouts st !! u = Some h → (h < next_handle st)%positive).

(** [tmX] is the timer of the last signal of [X]: it is registered
    for [X] and for nobody else, no other timer clears the indicator
    of [X], and the indicator is on until [tmX] has run. *)
Definition armed (X : string) (tmX : Timer) (st : State) : Prop :=
  sender tmX = X
  ∧ typingTimeouts st !! X = Some (handle tmX)
  ∧ (∀ u, typingTimeouts st !! u = Some (handle tmX) → u = X)
  ∧ (handle tmX < next_handle st)%positive
  ∧ (∀ tm, tm ∈ timers st → sender tm = X → tm = tmX)
  ∧ ((clock st < due tmX ∧ tmX ∈ timers st ∧ isTyping st !! X = Some true)
     ∨ (due tmX ≤ clock st ∧ isTyping st !! X = Some false)).

(** The indicator of [X] is on and no timer is left to clear it. *)
Definition stuck (X : string) (st : State) : Prop :=
  isTyping st !! X = Some true ∧ ∀ tm, tm ∈ timers st → sender tm ≠ X.

End TeamChat.

(** ** A small workspace, for concrete runs *)

Module Scenario.

Definition alice : AuthUser := {| user_id := "u-alice" |}.
Definition bob : AuthUser := {| user_id := "u-bob" |}.
Definition mallory : AuthUser := {| user_id := "u-mallory" |}.

Definition profile (user : AuthUser) (email name : string) : Profile :=
  {| profile_id := user_id user; profile_email := email; profile_full_name := name |}.

Definition owned_by_alice (id name : string) : Team :=
  {| team_id := id; team_name := name; team_owner_id := "u-alice";
     team_is_public := false |}.

(** Alice owns three teams; Bob and Mallory have accounts; nobody
    has been invited yet. *)
Definition base : Store :=
  {| user_profiles := [ profile alice "alice@lab.org" "Alice";
                        profile bob "bob@lab.org" "Bob";
                        profile mallory "mallory@lab.org" "Mallory" ];
     teams := [ owned_by_alice "t-research" "Research";
                owned_by_alice "t-reading" "Reading group";
                owned_by_alice "t-writing" "Writing" ];
     team_members := []; team_invitations := []; chat_messages := [];
     notifications := []; invitation_limits := ∅ |}.

(** Alice's invitation of Bob to the research team, created at 1000
    and due at 5000. *)
Definition invitation_bob (st : Status) : Invitation :=
  {| inv_id := "i-1"; inv_team_id := "t-research"; inv_inviter_id := "u-alice";
     inv_invitee_id := "u-bob"; inv_invitee_email := "bob@lab.org";
     inv_role := "editor"; inv_personal_message := None; inv_status := st;
     inv_created_at := 1000; inv_updated_at := 1000; inv_expires_at := 5000 |}.

(** The workspace holding that invitation in status [st]. *)
Definition holding (st : Status) : Store :=
  set_invitations [invitation_bob st] base.


(** A request served at clock [t] by a store that answers every
    call and hands out [key]. *)
Definition served (t : Z) (key : string) : Env :=
  {| now := t; admin_client := true; fresh_id := key;
     default_expires_at := t + 604800000;
     store_error := λ _, false; error_message := EmptyString |}.

(** The same, but the final update of the invitation fails. *)
Definition update_fails (t : Z) : Env :=
  {| now := t; admin_client := true; fresh_id := "k-0";
     default_expires_at := t + 604800000;
     store_error := λ c, match c with UpdateError => true | _ => false end;
     error_message := "connection lost" |}.

Definition invite (team email role : string) : Invitations.CreateBody :=
  {| Invitations.teamId := Some team; Invitations.inviteeEmail := Some email;
     Invitations.role := Some role; Invitations.personalMessage := None |}.

Definition resolve (id act : string) : Invitations.ResolveBody :=
  {| Invitations.invitationId := Some id; Invitations.action := Some act;
     Invitations.response := None |}.



(** The workspace once Bob has accepted, at 2000. *)
Definition after_accept : Store :=
  (Invitations.PUT (Some bob) (resolve "i-1" "accept") (served 2000 "k-0")
     (holding pending)).2.

Definition listing (type status : string) : Invitations.ListQuery :=
  {| Invitations.type := Some type; Invitations.status := Some status |}.


Definition typing (user : string) (on : bool) : TeamChat.Event :=
  TeamChat.TYPING
    {| TeamChat.data_userId := user; TeamChat.data_teamId := "t-research";
       TeamChat.data_isTyping := on |}.

Definition message (user text : string) : TeamChat.Event :=
  TeamChat.NEW_MESSAGE
    {| TeamChat.msg_id := "m-1"; TeamChat.msg_senderId := user;
       TeamChat.msg_senderName := user; TeamChat.msg_content := text;
       TeamChat.msg_timestamp := "2024-05-01T10:00:00Z";
       TeamChat.msg_teamId := "t-research"; TeamChat.msg_type := None |}.

(** Bob's component, showing the research team. *)
Definition bobs_chat : TeamChat.State := TeamChat.init "t-research" (Some "u-bob").

(** Mallory starts typing when the clock of Bob's component reads 0.
    At 1000 a dependency of the socket effect has changed ([socket],
    say) and the effect runs again, for the same team and user. *)
Definition rerun_while_typing : TeamChat.State :=
  TeamChat.receive_all
    [ (0, typing "u-mallory" true);
      (1000, TeamChat.EFFECT_RERUN "t-research" (Some "u-bob")) ]
    bobs_chat.

End Scenario.

(** ** What a listing query asks for *)

(** The rows the filters of the invitation GET keep: by [type] those
    the user sent, received, or either; by [status] those of that
    status, unless it is [all]. *)
Definition listed_for (user : AuthUser) (q : Invitations.ListQuery) (i : Invitation) : Prop :=
  let type := or_else (Invitations.type q) "all" in
  let status := or_else (Invitations.status q) "all" in
  (type = "sent" → inv_inviter_id i = user_id user)
  ∧ (type ≠ "sent" → type = "received" → inv_invitee_id i = user_id user)
  ∧ (type ≠ "sent" → type ≠ "received" →
     inv_inviter_id i = user_id user ∨ inv_invitee_id i = user_id user)
  ∧ (status = "all" ∨ status_name (inv_status i) = status).

#[global] Instance listed_for_dec user q i : Decision (listed_for user q i).
Proof. unfold listed_for. apply _. Defined.

(** The order of the listing compares any two rows, and chains. *)
#[global] Instance newest_first_total : Total Invitations.newest_first.
Proof. intros a b. unfold Invitations.newest_first. lia. Qed.

#[global] Instance newest_first_transitive : Transitive Invitations.newest_first.
Proof. intros a b c. unfold Invitations.newest_first. lia. Qed.


(** ** The [TeamChat] component: how it groups the messages *)

Module ChatView.

(** The property names an object literal inherits: for these,
    [groups[key]] is not [undefined] before any message is stored. *)
Definition Object_prototype_keys : list string :=
  [ "constructor"; "__proto__"; "hasOwnProperty"; "isPrototypeOf";
    "propertyIsEnumerable"; "toLocaleString"; "toString"; "valueOf";
    "__defineGetter__"; "__defineSetter__"; "__lookupGetter__"; "__lookupSetter__" ].

Section View.

(** [formatDate], which reads the clock and the locale of the browser. *)
Variable formatDate : string → string.

(** [groupMessagesByDate]: each message is pushed to the group of its
    date key, a group being created when its first message arrives.
    The groups are the own properties of an object literal, read with
    [groups[dateKey]]: the map stands for them as long as no date key
    is one of [Object_prototype_keys], which [formatDate] ('Today',
    'Yesterday', or a date of the locale) does not produce. *)
Definition groupMessagesByDate (messages : list TeamChat.ChatMessage)
    : gmap string (list TeamChat.ChatMessage) :=
  foldl (λ groups message,
           let dateKey := formatDate (TeamChat.timestamp message) in
           <[dateKey := (default [] (groups !! dateKey) ++ [message])%list]> groups)
        ∅ messages.

End View.

End ChatView.

(** ** The [NotificationBell] component *)

Module NotificationBell.

(** [interface Notification]; [created_at] as the milliseconds
    [new Date(created_at).getTime()] gives ([data] left out). *)
Record Notification := {
  id : string;
  type : string;
  title : string;
  message : string;
  is_read : bool;
  action_url : option string;
  created_at : Z;
}.

(** The two pieces of React state the handlers update. *)
Record State := {
  notifications : list Notification;
  unreadCount : Z;
}.












(** The outcome of [formatTime], before it is printed: ['Just now'],
    [`${n}m ago`], [`${n}h ago`], [`${n}d ago`], or the date in the
    locale of the browser. *)
Inductive Age :=
  | JustNow
  | MinutesAgo (n : Z)
  | HoursAgo (n : Z)
  | DaysAgo (n : Z)
  | OnDate.

(** [formatTime]; [Math.floor(diffMs / d)] is the floor division. *)
Definition formatTime (now timestamp : Z) : Age :=
  let diffMs := now - timestamp in
  let diffMins := diffMs `div` (1000 * 60) in
  let diffHours := diffMs `div` (1000 * 60 * 60) in
  let diffDays := diffMs `div` (1000 * 60 * 60 * 24) in
  if bool_decide (diffMins < 1) then JustNow
  else if bool_decide (diffMins < 60) then MinutesAgo diffMins
  else if bool_decide (diffHours < 24) then HoursAgo diffHours
  else if bool_decide (diffDays < 7) then DaysAgo diffDays
  else OnDate.

End NotificationBell.


(** ** More runs *)

Module Cases.

(** Alice's invitation of Mallory to the reading group, accepted. *)
Definition to_mallory : Invitation :=
  {| inv_id := "i-2"; inv_team_id := "t-reading"; inv_inviter_id := "u-alice";
     inv_invitee_id := "u-mallory"; inv_invitee_email := "mallory@lab.org";
     inv_role := "viewer"; inv_personal_message := None; inv_status := accepted;
     inv_created_at := 3000; inv_updated_at := 3500; inv_expires_at := 7000 |}.

(** Mallory's invitation of Bob to the writing group, pending. *)
Definition from_mallory : Invitation :=
  {| inv_id := "i-3"; inv_team_id := "t-writing"; inv_inviter_id := "u-mallory";
     inv_invitee_id := "u-bob"; inv_invitee_email := "bob@lab.org";
     inv_role := "viewer"; inv_personal_message := None; inv_status := pending;
     inv_created_at := 2000; inv_updated_at := 2000; inv_expires_at := 6000 |}.

(** The workspace holding three invitations, stored oldest first. *)
Definition inbox : Store :=
  set_invitations [Scenario.invitation_bob pending; from_mallory; to_mallory] Scenario.base.

(** Bob holds a pending invitation to the research team and has been
    added to it directly in the meantime. *)
Definition added_meanwhile : Store :=
  insert_member
    {| member_team_id := "t-research"; member_user_id := "u-bob";
       member_role := "viewer"; member_joined_at := None; member_created_at := Some 1500 |}
    (Scenario.holding pending).

Definition posted (id sender text timestamp : string) : TeamChat.ChatMessage :=
  {| TeamChat.id := id; TeamChat.senderId := sender; TeamChat.senderName := sender;
     TeamChat.content := text; TeamChat.timestamp := timestamp;
     TeamChat.teamId := "t-research"; TeamChat.type := "text" |}.

(** A [formatDate] that prints the day of an ISO timestamp. *)
Definition day (timestamp : string) : string := String.substring 0 10 timestamp.





End Cases.

(** * Properties *)

(** ** Queries and table updates *)

Lemma single_Some {A} (l : list A) (x : A) : single l = Some x ↔ l = [x].
Proof.
  destruct l as [|y [|z l]]; simpl; split; intros E; by simplify_eq.
Qed.

Lemma single_None_short {A} (l : list A) :
  single l = None → (length l ≤ 1)%nat → l = [].
Proof.
  destruct l as [|y [|z l]]; simpl; intros E Hlen; [done | done | lia].
Qed.

Lemma length_filter_fmap_le {A} (P : A → Prop) `{!∀ x, Decision (P x)} (f : A → A)
    (l : list A) :
  (∀ x, P (f x) → P x) →
  (length (filter P (f <$> l)) ≤ length (filter P l))%nat.
Proof.
  intros Hf. induction l as [|x l IH]; [done|].
  rewrite fmap_cons, !filter_cons.
  destruct (decide (P (f x))) as [Hfx|Hfx], (decide (P x)) as [Hx|Hx]; simpl; try lia.
  by destruct Hx; apply Hf.
Qed.

Lemma length_filter_filter_le {A} (P Q : A → Prop)
    `{!∀ x, Decision (P x)} `{!∀ x, Decision (Q x)} (l : list A) :
  (length (filter P (filter Q l)) ≤ length (filter P l))%nat.
Proof.
  induction l as [|x l IH]; [done|].
  rewrite !filter_cons.
  destruct (decide (Q x)), (decide (P x)); rewrite ?filter_cons; simpl;
    repeat case_decide; simpl; try done; lia.
Qed.

Lemma filter_fmap_id_preserving {A} `{EqDecision K} (key : A → K) (f : A → A) (k : K)
    (l : list A) :
  (∀ x, key (f x) = key x) →
  filter (λ x, key x = k) (f <$> l) = f <$> filter (λ x, key x = k) l.
Proof.
  intros Hkey. induction l as [|x l IH]; [done|].
  rewrite fmap_cons, !filter_cons, Hkey.
  case_decide; by rewrite ?fmap_cons, IH.
Qed.

Section invitation_updates.
Import Invitations.

Lemma set_fields_id st upd i : inv_id (set_fields st upd i) = inv_id i.
Proof. done. Qed.

(** Looking an invitation up after an update of the same key. *)
Lemma invitation_by_id_update s id st upd :
  invitation_by_id (update_invitation id st upd s) id
  = set_fields st upd <$> invitation_by_id s id.
Proof.
  unfold invitation_by_id, update_invitation; simpl.
  rewrite (filter_fmap_id_preserving inv_id).
  - assert (Hmap : ∀ l : list Invitation,
               Forall (λ i, inv_id i = id) l →
               (λ i, if decide (inv_id i = id) then set_fields st upd i else i) <$> l
               = set_fields st upd <$> l).
    { induction 1 as [|x l Hx _ IH]; [done|].
      rewrite !fmap_cons, IH. by rewrite decide_True. }
    rewrite Hmap.
    + by destruct (filter _ (team_invitations s)) as [|x [|y l]].
    + apply Forall_forall. intros x Hx. by apply list_elem_of_filter in Hx as [? _].
  - intros x. by case_decide.
Qed.

Lemma pending_update_le s id st upd team invitee :
  st ≠ Some pending →
  (length (pending_for (update_invitation id st upd s) team invitee)
   ≤ length (pending_for s team invitee))%nat.
Proof.
  intros Hst. unfold pending_for, update_invitation; simpl.
  apply length_filter_fmap_le. intros i. case_decide; [|done].
  destruct st as [st|]; simpl; [|done].
  intros (? & ? & ?). congruence.
Qed.

Lemma pending_delete_le s id team invitee :
  (length (pending_for (delete_invitation id s) team invitee)
   ≤ length (pending_for s team invitee))%nat.
Proof. unfold pending_for, delete_invitation; simpl. apply length_filter_filter_le. Qed.

Lemma one_pending_ext s s' :
  team_invitations s' = team_invitations s →
  one_pending_per_pair s → one_pending_per_pair s'.
Proof. intros E H team invitee. unfold pending_for. rewrite E. apply H. Qed.

Lemma one_pending_update s id st upd :
  st ≠ Some pending →
  one_pending_per_pair s → one_pending_per_pair (update_invitation id st upd s).
Proof.
  intros Hst H team invitee.
  etrans; [by apply pending_update_le|apply H].
Qed.

Lemma one_pending_delete s id :
  one_pending_per_pair s → one_pending_per_pair (delete_invitation id s).
Proof. intros H team invitee. etrans; [apply pending_delete_le|apply H]. Qed.

(** A new pending invitation keeps the invariant when its pair has
    no single pending invitation yet. *)
Lemma one_pending_insert s i :
  one_pending_per_pair s →
  single (pending_for s (inv_team_id i) (inv_invitee_id i)) = None →
  one_pending_per_pair (insert_invitation i s).
Proof.
  intros H Hnone team invitee.
  unfold pending_for, insert_invitation; simpl.
  rewrite filter_app, length_app, filter_cons, filter_nil.
  case_decide as Hi; simpl.
  - destruct Hi as (<- & <- & _).
    apply single_None_short in Hnone; [|apply H].
    unfold pending_for in Hnone. by rewrite Hnone.
  - specialize (H team invitee). unfold pending_for in H. lia.
Qed.

End invitation_updates.

Lemma one_pending_create_notification n s :
  one_pending_per_pair s → one_pending_per_pair (create_notification n s).
Proof. by apply one_pending_ext. Qed.

Lemma one_pending_insert_member m s :
  one_pending_per_pair s → one_pending_per_pair (insert_member m s).
Proof. by apply one_pending_ext. Qed.

Lemma one_pending_insert_profile p s :
  one_pending_per_pair s → one_pending_per_pair (insert_profile p s).
Proof. by apply one_pending_ext. Qed.

Lemma one_pending_insert_chat_message c s :
  one_pending_per_pair s → one_pending_per_pair (insert_chat_message c s).
Proof. by apply one_pending_ext. Qed.

Lemma one_pending_update_limit s user team day :
  one_pending_per_pair s →
  one_pending_per_pair (RateLimit.update_invitation_limit s user team day).
Proof. by apply one_pending_ext. Qed.

Local Ltac keep_pending :=
  repeat first
    [ assumption
    | apply one_pending_update; [done|]
    | apply one_pending_delete
    | apply one_pending_create_notification
    | apply one_pending_insert_member
    | apply one_pending_insert_profile
    | apply one_pending_insert_chat_message
    | apply one_pending_update_limit ].

Lemma GET_preserves auth q env s :
  one_pending_per_pair s → one_pending_per_pair (Invitations.GET auth q env s).2.
Proof. intros H. unfold Invitations.GET. repeat case_match; cbn [snd]; keep_pending. Qed.

Lemma POST_preserves auth req env s :
  one_pending_per_pair s → one_pending_per_pair (Invitations.POST auth req env s).2.
Proof.
  intros H. unfold Invitations.POST.
  repeat case_match; cbn [snd]; keep_pending.
  by apply one_pending_insert.
Qed.

Lemma PUT_preserves auth req env s :
  one_pending_per_pair s → one_pending_per_pair (Invitations.PUT auth req env s).2.
Proof. intros H. unfold Invitations.PUT. repeat case_match; cbn [snd]; keep_pending. Qed.

Lemma DELETE_preserves auth id env s :
  one_pending_per_pair s → one_pending_per_pair (Invitations.DELETE auth id env s).2.
Proof. intros H. unfold Invitations.DELETE. repeat case_match; cbn [snd]; keep_pending. Qed.

Lemma add_member_preserves uid req env s :
  one_pending_per_pair s → one_pending_per_pair (Members.POST uid req env s).2.
Proof.
  intros H. unfold Members.POST.
  repeat case_match; simplify_eq; cbn [snd]; keep_pending.
Qed.

Lemma handle_preserves r env s :
  one_pending_per_pair s → one_pending_per_pair (handle r env s).2.
Proof.
  destruct r; simpl;
    auto using GET_preserves, POST_preserves, PUT_preserves, DELETE_preserves,
               add_member_preserves.
Qed.

Lemma run_preserves trace s :
  one_pending_per_pair s → one_pending_per_pair (run trace s).
Proof.
  revert s. induction trace as [|[r env] trace IH]; intros s H; [done|].
  simpl. by apply IH, handle_preserves.
Qed.

Lemma empty_store_one_pending : one_pending_per_pair empty_store.
Proof. intros team invitee. unfold Invitations.pending_for. simpl. lia. Qed.

(** Every store reached from the empty one has the property. *)
Lemma reachable_one_pending trace : one_pending_per_pair (run trace empty_store).
Proof. apply run_preserves, empty_store_one_pending. Qed.

(** ** Creating an invitation *)

Lemma truthy_Some (x : string) : x ≠ EmptyString → truthy (Some x) = true.
Proof. intros H. unfold truthy. by apply String.eqb_neq in H as ->. Qed.

Section create.
Import Invitations.

(** Rewrites the guards of [POST] that [create_wellformed] settles. *)
Local Ltac pass_guards H :=
  destruct H as (Hteam & Hemail & Ht & He & Hrole & Hre & Hadm & Hcan & Huerr);
  unfold POST; rewrite Hteam, Hemail, !truthy_Some by done;
  rewrite (bool_decide_eq_true_2 _ Hrole), Hre, Hadm, Hcan, Huerr;
  cbn [negb orb].




Lemma POST_created user req env s team email invitee t :
  create_eligible user req env s team email invitee →
  single (pending_for s team (profile_id invitee)) = None →
  RateLimit.check_invitation_limit s (user_id user) team (RateLimit.day_of (now env)) = true →
  team_by_id s team = Some t →
  store_error env InviteError = false →
  let invitation :=
    {| inv_id := fresh_id env; inv_team_id := team; inv_inviter_id := user_id user;
       inv_invitee_id := profile_id invitee; inv_invitee_email := email;
       inv_role := default "viewer" (role req);
       inv_personal_message := personalMessage req; inv_status := pending;
       inv_created_at := now env; inv_updated_at := now env;
       inv_expires_at := default_expires_at env |} in
  POST (Some user) req env s
  = (Reply 200 (Created invitation ("Invitation sent to " ++ email)),
     create_notification
       {| target_user_id := profile_id invitee;
          notification_type := "team_invitation";
          notification_title := "Team Invitation: " ++ team_name t;
          notification_team_id := team;
          action_url := Some ("/collaborate?invitation=" ++ fresh_id env) |}
       (RateLimit.update_invitation_limit (insert_invitation invitation s)
          (user_id user) team (RateLimit.day_of (now env)))).
Proof.
  intros (H & Hprof & Hmem) Hnone Hlimit Hteam' Hins. pass_guards H.
  by rewrite Hprof, Hmem, Hnone, Hlimit, Hteam', Hins.
Qed.


End create.


(** ** Resolving an invitation *)

Section resolve.
Import Invitations.

(** Rewrites the steps of [PUT] that [resolve_fetches] settles. *)
Local Ltac to_fetched H :=
  destruct H as (Hid & Hact & Hne & Hknown & Hadm & Hferr & Hfetch);
  unfold PUT; rewrite Hid, Hact, (truthy_Some _ Hne);
  rewrite (bool_decide_eq_true_2 _ Hknown), Hadm, Hferr, Hfetch;
  cbn [negb orb].

Lemma known_action_truthy act :
  act ∈ ["accept"; "reject"; "cancel"] → truthy (Some act) = true.
Proof.
  intros H. apply truthy_Some. intros ->.
  rewrite !elem_of_cons, elem_of_nil in H.
  destruct H as [H|[H|[H|[]]]]; discriminate H.
Qed.

Lemma PUT_denied_respond user req env s id act invitation :
  resolve_fetches req env s id act invitation →
  act = "accept" ∨ act = "reject" →
  inv_invitee_id invitation ≠ user_id user →
  PUT (Some user) req env s = (PermissionDenied_respond, s).
Proof.
  intros H Hact' Hother. to_fetched H.
  rewrite (bool_decide_eq_true_2 _ Hother).
  by destruct Hact' as [-> | ->].
Qed.

Lemma PUT_denied_cancel user req env s id invitation :
  resolve_fetches req env s id "cancel" invitation →
  inv_inviter_id invitation ≠ user_id user →
  PUT (Some user) req env s = (PermissionDenied_cancel, s).
Proof.
  intros H Hother. to_fetched H.
  by rewrite (bool_decide_eq_true_2 _ Hother).
Qed.

Lemma entitled_passes user act invitation :
  entitled user act invitation →
  bool_decide (act = "cancel") && bool_decide (inv_inviter_id invitation ≠ user_id user) = false
  ∧ (bool_decide (act = "accept") || bool_decide (act = "reject"))
    && bool_decide (inv_invitee_id invitation ≠ user_id user) = false.
Proof.
  intros [Hc Hr]. split.
  - case_bool_decide as Hact; [|done]. rewrite bool_decide_eq_false_2; [done|]. auto.
  - destruct (bool_decide (act = "accept") || bool_decide (act = "reject")) eqn:E; [|done].
    rewrite bool_decide_eq_false_2; [done|].
    intros Hne. apply Hne, Hr.
    apply orb_true_iff in E as [E|E]; apply bool_decide_eq_true in E; auto.
Qed.

Lemma PUT_already_resolved user req env s id act invitation :
  resolve_fetches req env s id act invitation →
  entitled user act invitation →
  inv_status invitation ≠ pending →
  PUT (Some user) req env s = (AlreadyResolved (inv_status invitation), s).
Proof.
  intros H Hent Hst.
  assert (truthy (Some act) = true) as Htr by (apply known_action_truthy, H).
  destruct (entitled_passes _ _ _ Hent) as [E1 E2].
  to_fetched H. rewrite Htr, E1, E2. cbn [negb orb].
  by rewrite (bool_decide_eq_true_2 _ Hst).
Qed.


Lemma PUT_accepted user req env s id invitation t :
  resolve_fetches req env s id "accept" invitation →
  inv_invitee_id invitation = user_id user →
  inv_status invitation = pending →
  ¬ inv_expires_at invitation < now env →
  store_error env MemberError = false →
  store_error env UpdateError = false →
  team_by_id s (inv_team_id invitation) = Some t →
  PUT (Some user) req env s
  = (Reply 200 (Resolved "Invitation accepted successfully" "accept" (team_name t)),
     update_invitation id (Some accepted) (Some (now env))
       (create_notification (member_added invitation)
          (insert_member (accepted_member invitation env) s))).
Proof.
  intros H Hinvitee Hst Hlive Hmerr Huerr Hteam.
  to_fetched H. cbn [truthy String.eqb Ascii.eqb Bool.eqb negb orb andb].
  rewrite (bool_decide_eq_false_2 ("accept" = "cancel")) by done.
  rewrite (bool_decide_eq_false_2 (inv_invitee_id invitation ≠ user_id user)) by auto.
  rewrite andb_false_r. cbn [andb].
  rewrite bool_decide_eq_false_2 by (by intros []).
  rewrite (bool_decide_eq_false_2 _ Hlive).
  rewrite decide_True by done.
  by rewrite Hmerr, Hteam, Huerr.
Qed.

End resolve.

Section resolve_outcomes.
Import Invitations.

Lemma passes_entitled user act invitation :
  bool_decide (act = "cancel") && bool_decide (inv_inviter_id invitation ≠ user_id user) = false →
  (bool_decide (act = "accept") || bool_decide (act = "reject"))
    && bool_decide (inv_invitee_id invitation ≠ user_id user) = false →
  entitled user act invitation.
Proof.
  intros H1 H2. split.
  - intros ->. rewrite bool_decide_eq_true_2 in H1 by done.
    apply bool_decide_eq_false in H1. by destruct (decide (inv_inviter_id invitation = user_id user)).
  - intros Hact.
    assert (bool_decide (act = "accept") || bool_decide (act = "reject") = true) as E.
    { destruct Hact as [-> | ->]; by rewrite ?orb_true_r. }
    rewrite E in H2. apply bool_decide_eq_false in H2.
    by destruct (decide (inv_invitee_id invitation = user_id user)).
Qed.

(** A resolve that succeeds was asked by an entitled user for a
    pending invitation, and moves that invitation out of [pending]. *)
Lemma PUT_success_inv auth req env s :
  is_success (PUT auth req env s).1 = true →
  ∃ user id act invitation st s1,
    auth = Some user
    ∧ resolve_fetches req env s id act invitation
    ∧ entitled user act invitation
    ∧ inv_status invitation = pending
    ∧ st ≠ pending
    ∧ team_invitations s1 = team_invitations s
    ∧ (PUT auth req env s).2 = update_invitation id (Some st) (Some (now env)) s1.
Proof.
  unfold PUT.
  destruct auth as [user|]; [|done].
  destruct (invitationId req) as [id|] eqn:Hid; [|done].
  destruct (action req) as [act|] eqn:Hact; [|done].
  destruct (truthy (Some id)) eqn:Hne; [|done].
  destruct (truthy (Some act)) eqn:Hact_ne; [|done]. cbn [negb orb].
  destruct (bool_decide (act ∈ ["accept"; "reject"; "cancel"])) eqn:Hknown; [|done].
  apply bool_decide_eq_true in Hknown. cbn [negb].
  destruct (admin_client env) eqn:Hadm; [|done]. cbn [negb].
  destruct (store_error env FetchError) eqn:Hferr; [done|].
  destruct (invitation_by_id s id) as [invitation|] eqn:Hfetch; [|done].
  destruct (_ && _) eqn:E1 in |- *; [done|].
  destruct (_ && _) eqn:E2 in |- *; [done|].
  destruct (bool_decide (inv_status invitation ≠ pending)) eqn:Hst; [done|].
  apply bool_decide_eq_false in Hst.
  destruct (bool_decide (inv_expires_at invitation < now env)) eqn:Hexp; [done|].
  assert (resolve_fetches req env s id act invitation) as Hf.
  { split_and!; try done. intros ->. done. }
  assert (inv_status invitation = pending) as Hpending.
  { by destruct (decide (inv_status invitation = pending)). }
  pose proof (passes_entitled _ _ _ E1 E2) as Hent.
  intros Hok.
  assert (act = "accept" ∨ act = "reject" ∨ act = "cancel") as Hcases.
  { rewrite !elem_of_cons, elem_of_nil in Hknown. tauto. }
  destruct Hcases as [-> | [-> | ->]].
  all: repeat case_match; try done; simplify_eq.
  all: eexists user, id, _, invitation, _, _;
    split_and!; [done | done | done | done | | | cbn [snd]; reflexivity]; done.
Qed.

End resolve_outcomes.

Section resolve_settled.
Import Invitations.

Lemma invitation_by_id_ext s s' id :
  team_invitations s' = team_invitations s →
  invitation_by_id s' id = invitation_by_id s id.
Proof. unfold invitation_by_id. by intros ->. Qed.

Lemma PUT_settled auth req env s id invitation :
  invitationId req = Some id →
  invitation_by_id s id = Some invitation →
  inv_status invitation ≠ pending →
  is_success (PUT auth req env s).1 = false ∧ (PUT auth req env s).2 = s.
Proof.
  intros Hid Hfetch Hst. unfold PUT. rewrite Hid.
  destruct auth as [user|]; [|done].
  destruct (action req) as [act|]; [|done].
  destruct (_ || _); [done|].
  destruct (negb (bool_decide _)); [done|].
  destruct (negb (admin_client env)); [done|].
  destruct (store_error env FetchError); [done|].
  rewrite Hfetch.
  destruct (_ && _); [done|].
  destruct (_ && _); [done|].
  by rewrite (bool_decide_eq_true_2 _ Hst).
Qed.

Lemma just_resolved_settled s id : just_resolved s id → settled s id.
Proof.
  intros (auth & req & env & s0 & Hid & Hok & ->).
  apply PUT_success_inv in Hok
    as (user & id' & act & invitation & st & s1 & _ & Hf & _ & _ & Hst & Hrows & ->).
  destruct Hf as (Hid' & _ & _ & _ & _ & _ & Hfetch). simplify_eq.
  exists (set_fields (Some st) (Some (now env)) invitation). split; [|done].
  by rewrite invitation_by_id_update, (invitation_by_id_ext s0 s1), Hfetch.
Qed.

Lemma PUT_not_entitled user req env s id act invitation :
  resolve_fetches req env s id act invitation →
  ¬ entitled user act invitation →
  PUT (Some user) req env s
  = (if decide (act = "cancel") then PermissionDenied_cancel else PermissionDenied_respond, s).
Proof.
  intros Hf Hent.
  assert (act = "accept" ∨ act = "reject" ∨ act = "cancel") as Hcases.
  { destruct Hf as (_ & _ & _ & Hknown & _).
    rewrite !elem_of_cons, elem_of_nil in Hknown. tauto. }
  case_decide as Hc.
  - subst act. eapply PUT_denied_cancel; [done|].
    intros E. apply Hent. split; [done|]. by intros [|].
  - eapply PUT_denied_respond; [done|tauto|].
    intros E. apply Hent. split; [done|]. by intros _.
Qed.

End resolve_settled.

(** C2 (amended). A resolve of an invitation that is no longer pending
    (accepted, rejected, cancelled or expired in the store, or just
    moved out of pending by a successful resolve) fails for every
    action and acting user, and leaves the store, so the membership
    table, as it was.  Its reply is PermissionDenied when the acting
    user is not entitled to the action, and AlreadyResolved otherwise. *)
Theorem resolve_settled_fails (s : Store) (id : string) :
  settled s id ∨ just_resolved s id →
  ∀ auth req env,
    Invitations.invitationId req = Some id →
    is_success (Invitations.PUT auth req env s).1 = false
    ∧ (Invitations.PUT auth req env s).2 = s
    ∧ (∀ user act invitation,
         auth = Some user →
         resolve_fetches req env s id act invitation →
         (Invitations.PUT auth req env s).1
         = if decide (entitled user act invitation)
           then AlreadyResolved (inv_status invitation)
           else if decide (act = "cancel") then PermissionDenied_cancel
                else PermissionDenied_respond).
Proof.
  intros Hs auth req env Hid.
  assert (settled s id) as (invitation & Hfetch & Hst).
  { destruct Hs; [done|by apply just_resolved_settled]. }
  destruct (PUT_settled auth req env s id invitation) as [Hfail Hsame]; [done..|].
  split_and!; [done..|].
  intros user act invitation' -> Hf.
  assert (invitation' = invitation) as ->.
  { destruct Hf as (_ & _ & _ & _ & _ & _ & Hfetch'). congruence. }
  case_decide as Hent.
  - by erewrite PUT_already_resolved.
  - by erewrite PUT_not_entitled.
Qed.

(** C3 (amended). A resolve(accept) call that returns an error leaves
    the store unchanged, with two exceptions: the Expired reply, which
    persists the flip of that invitation to expired and nothing else;
    and a failure after the membership insert (the status update
    fails, or the team joined to the invitation is missing), where the
    inserted row, and for the failed update the notification, stay. *)
Theorem accept_failure_outcomes auth req env (s : Store) :
  Invitations.action req = Some "accept" →
  is_success (Invitations.PUT auth req env s).1 = false →
  (Invitations.PUT auth req env s).2 = s
  ∨ (∃ id,
       Invitations.invitationId req = Some id
       ∧ (Invitations.PUT auth req env s).1 = Expired
       ∧ (Invitations.PUT auth req env s).2 = update_invitation id (Some expired) None s)
  ∨ (∃ id invitation,
       Invitations.invitationId req = Some id
       ∧ Invitations.invitation_by_id s id = Some invitation
       ∧ inv_status invitation = pending
       ∧ store_error env MemberError = false
       ∧ ((Invitations.PUT auth req env s).1 = InternalServerError
          ∧ Invitations.team_by_id s (inv_team_id invitation) = None
          ∧ (Invitations.PUT auth req env s).2
            = insert_member (accepted_member invitation env) s
          ∨ (Invitations.PUT auth req env s).1
            = Reply 500 (Error "Failed to update invitation")
            ∧ store_error env UpdateError = true
            ∧ (Invitations.PUT auth req env s).2
              = create_notification (member_added invitation)
                  (insert_member (accepted_member invitation env) s))).
Proof.
  intros Hact. unfold Invitations.PUT. rewrite Hact.
  destruct auth as [user|]; [|by left].
  destruct (Invitations.invitationId req) as [id|] eqn:Hid; [|by left].
  destruct (truthy (Some id)); [|by left].
  cbn [truthy String.eqb Ascii.eqb Bool.eqb negb orb andb].
  rewrite bool_decide_eq_true_2 by (rewrite !elem_of_cons; tauto). cbn [negb].
  destruct (admin_client env); [|by left]. cbn [negb].
  destruct (store_error env FetchError); [by left|].
  destruct (Invitations.invitation_by_id s id) as [invitation|] eqn:Hfetch; [|by left].
  destruct (_ && _) in |- *; [by left|].
  destruct (_ && _) in |- *; [by left|].
  destruct (bool_decide (inv_status invitation ≠ pending)) eqn:Hst; [by left|].
  apply bool_decide_eq_false in Hst.
  assert (inv_status invitation = pending) as Hpending.
  { by destruct (decide (inv_status invitation = pending)). }
  destruct (bool_decide (inv_expires_at invitation < now env)).
  { intros _. right; left. by exists id. }
  rewrite decide_True by done.
  destruct (store_error env MemberError) eqn:Hmerr; [by left|].
  destruct (Invitations.team_by_id s (inv_team_id invitation)) as [t|] eqn:Hteam.
  - destruct (store_error env UpdateError) eqn:Huerr; [|done].
    intros _. right; right. exists id, invitation. split_and!; [done..|]. by right.
  - intros _. right; right. exists id, invitation. split_and!; [done..|]. by left.
Qed.

(** C4. For a pending invitation that is not overdue, accept by the
    invitee succeeds; afterwards the membership table has one more row,
    (team, invitee) with the role of the invitation, the invitation is
    accepted, and one more notification, member_added for the inviter,
    has been emitted; the other tables are as before.  (The store
    answers its calls, and holds the team the invitation refers to.) *)
Theorem accept_pending_invitation user req env (s : Store) id invitation t :
  resolve_fetches req env s id "accept" invitation →
  healthy env →
  inv_status invitation = pending →
  ¬ now env > inv_expires_at invitation →
  user_id user = inv_invitee_id invitation →
  Invitations.team_by_id s (inv_team_id invitation) = Some t →
  let r := Invitations.PUT (Some user) req env s in
  r.1 = Reply 200 (Resolved "Invitation accepted successfully" "accept" (team_name t))
  ∧ team_members r.2
    = (team_members s
       ++ [ {| member_team_id := inv_team_id invitation;
               member_user_id := inv_invitee_id invitation;
               member_role := inv_role invitation;
               member_joined_at := Some (now env);
               member_created_at := None |} ])%list
  ∧ (∃ invitation',
       Invitations.invitation_by_id r.2 id = Some invitation'
       ∧ inv_status invitation' = accepted)
  ∧ team_invitations r.2
    = (λ i, if decide (inv_id i = id)
            then set_fields (Some accepted) (Some (now env)) i else i)
        <$> team_invitations s
  ∧ (∃ n, notifications r.2 = (notifications s ++ [n])%list
          ∧ notification_type n = "member_added"
          ∧ target_user_id n = inv_inviter_id invitation)
  ∧ user_profiles r.2 = user_profiles s
  ∧ teams r.2 = teams s
  ∧ chat_messages r.2 = chat_messages s
  ∧ invitation_limits r.2 = invitation_limits s.
Proof.
  intros Hf [_ Hok] Hst Hlive Huser Hteam r. subst r.
  erewrite PUT_accepted; [| done | done | done | lia | apply Hok | apply Hok | done].
  cbn [fst snd]. split_and!; try done.
  - exists (set_fields (Some accepted) (Some (now env)) invitation). split; [|done].
    destruct Hf as (_ & _ & _ & _ & _ & _ & Hfetch).
    by rewrite invitation_by_id_update, (invitation_by_id_ext s), Hfetch.
  - by exists (member_added invitation).
Qed.

(** C9. For a pending invitation that the request fetches, resolve
    replies PermissionDenied and changes nothing when the acting user
    is not the invitee and the action is accept or reject, or is not
    the inviter and the action is cancel; and a resolve that succeeds
    was asked by the invitee (accept, reject) or the inviter (cancel). *)
Theorem resolve_permission_denied user req env (s : Store) id act invitation :
  resolve_fetches req env s id act invitation →
  inv_status invitation = pending →
  (act = "accept" ∨ act = "reject" →
   user_id user ≠ inv_invitee_id invitation →
   Invitations.PUT (Some user) req env s = (PermissionDenied_respond, s))
  ∧ (act = "cancel" →
     user_id user ≠ inv_inviter_id invitation →
     Invitations.PUT (Some user) req env s = (PermissionDenied_cancel, s))
  ∧ (is_success (Invitations.PUT (Some user) req env s).1 = true →
     (act = "accept" ∨ act = "reject" → user_id user = inv_invitee_id invitation)
     ∧ (act = "cancel" → user_id user = inv_inviter_id invitation)).
Proof.
  intros Hf Hst. split_and!.
  - intros Hact Hother. by eapply PUT_denied_respond.
  - intros -> Hother. by eapply PUT_denied_cancel.
  - intros Hok.
    apply PUT_success_inv in Hok
      as (user' & id' & act' & invitation' & _ & _ & Hauth & Hf' & [Hc Hr] & _).
    destruct Hf as (Hid & Hact & _ & _ & _ & _ & Hfetch).
    destruct Hf' as (Hid' & Hact' & _ & _ & _ & _ & Hfetch').
    simplify_eq. split; intros; symmetry; auto.
Qed.

(** ** Unknown recipients and the daily limit *)

Section create_limits.
Import Invitations.








End create_limits.




(** ** Typing presence *)

Section typing_handlers.
Import TeamChat.

Variable team : string.
Variable me : option string.

Implicit Types (st : State) (tm : Timer) (m : gmap string bool).

(** *** Timers that run *)

Lemma fired_keeps_false (l : list Timer) m X :
  m !! X = Some false →
  foldl (λ m tm, <[sender tm := false]> m) m l !! X = Some false.
Proof.
  revert m. induction l as [|tm l IH]; intros m H; [done|].
  simpl. apply IH.
  destruct (decide (sender tm = X)) as [->|Hne].
  - by rewrite lookup_insert_eq.
  - by rewrite lookup_insert_ne.
Qed.

Lemma fired_clears (l : list Timer) m tm :
  tm ∈ l → foldl (λ m tm, <[sender tm := false]> m) m l !! sender tm = Some false.
Proof.
  revert m. induction l as [|tm' l IH]; intros m Hin; [by apply elem_of_nil in Hin|].
  apply elem_of_cons in Hin as [->|Hin]; simpl.
  - apply fired_keeps_false. by rewrite lookup_insert_eq.
  - by apply IH.
Qed.

Lemma fired_others (l : list Timer) m X :
  (∀ tm, tm ∈ l → sender tm ≠ X) →
  foldl (λ m tm, <[sender tm := false]> m) m l !! X = m !! X.
Proof.
  revert m. induction l as [|tm l IH]; intros m H; [done|].
  simpl. rewrite IH.
  - apply lookup_insert_ne, H, elem_of_cons. by left.
  - intros tm' Hin. apply H, elem_of_cons. by right.
Qed.

(** *** The bookkeeping holds throughout *)

Lemma wf_init : wf (init team me).
Proof. split; [intros tm H; by apply elem_of_nil in H | intros u h H; done]. Qed.

Lemma wf_advance t st : wf st → wf (advance t st).
Proof.
  intros [H1 H2]. split; [|done].
  intros tm Hin. apply list_elem_of_filter in Hin as [_ Hin]. by apply H1.
Qed.

Lemma wf_clearTimeout h st : wf st → wf (clearTimeout h st).
Proof.
  intros [H1 H2]. split; [|done].
  intros tm Hin. apply list_elem_of_filter in Hin as [_ Hin]. by apply H1.
Qed.

(** After clearing the handle registered for [u], no timer of [u] is
    armed. *)
Lemma no_timer_after_clear st u :
  wf st →
  ∀ tm,
    tm ∈ timers (match typingTimeouts st !! u with
                 | Some h => clearTimeout h st
                 | None => st
                 end) →
    sender tm ≠ u.
Proof.
  intros [H1 _] tm Hin Hu.
  destruct (typingTimeouts st !! u) as [h|] eqn:Hreg.
  - apply list_elem_of_filter in Hin as [Hne Hin].
    apply H1 in Hin. rewrite Hu, Hreg in Hin. by simplify_eq.
  - apply H1 in Hin. rewrite Hu, Hreg in Hin. done.
Qed.

Lemma wf_setTimeout u d st :
  wf st → (∀ tm, tm ∈ timers st → sender tm ≠ u) → wf (setTimeout u d st).
Proof.
  intros [H1 H2] Hnone. split.
  - intros tm Hin. cbn [timers setTimeout] in Hin.
    apply elem_of_app in Hin as [Hin|Hin]; cbn [typingTimeouts setTimeout].
    + rewrite lookup_insert_ne by (by intros E; eapply Hnone).
      by apply H1.
    + apply list_elem_of_singleton in Hin as ->. by rewrite lookup_insert_eq.
  - intros v h. cbn [typingTimeouts next_handle setTimeout].
    destruct (decide (u = v)) as [->|Hne].
    + rewrite lookup_insert_eq. intros [= <-]. lia.
    + rewrite lookup_insert_ne by done. intros Hv. apply H2 in Hv. lia.
Qed.

Lemma wf_handleTyping data st : wf st → wf (handleTyping team me data st).
Proof.
  intros Hwf. unfold handleTyping.
  destruct (_ && _); [|done].
  assert (wf (setIsTyping (data_userId data) (data_isTyping data) st)) as Hwf1 by done.
  pose proof (no_timer_after_clear _ (data_userId data) Hwf1) as Hnone.
  assert (wf (match typingTimeouts
                      (setIsTyping (data_userId data) (data_isTyping data) st)
                      !! data_userId data with
              | Some h => clearTimeout h
                            (setIsTyping (data_userId data) (data_isTyping data) st)
              | None => setIsTyping (data_userId data) (data_isTyping data) st
              end)) as Hwf2.
  { destruct (typingTimeouts _ !! _); [by apply wf_clearTimeout|done]. }
  destruct (data_isTyping data); [|done].
  by apply wf_setTimeout.
Qed.

Lemma wf_handleNewMessage data st : wf st → wf (handleNewMessage team data st).
Proof.
  intros Hwf. unfold handleNewMessage.
  case_decide; [|done].
  destruct (typingTimeouts _ !! _) as [h|]; [|done].
  assert (wf (setMessages
                {| id := msg_id data; senderId := msg_senderId data;
                   senderName := msg_senderName data; content := msg_content data;
                   timestamp := msg_timestamp data; teamId := msg_teamId data;
                   type := or_else (msg_type data) "text" |} st)) as Hwf1 by done.
  by apply (wf_clearTimeout h) in Hwf1.
Qed.

(** *** From a signal to its expiry *)

Lemma armed_signal st X :
  wf st → Some X ≠ me →
  armed X {| handle := next_handle st; due := clock st + 3000; sender := X |}
    (handleTyping team me
       {| data_userId := X; data_teamId := team; data_isTyping := true |} st).
Proof.
  intros Hwf Hme. unfold handleTyping. cbn [data_userId data_teamId data_isTyping].
  rewrite !bool_decide_eq_true_2 by done. cbn [andb].
  assert (wf (setIsTyping X true st)) as Hwf1 by done.
  pose proof (no_timer_after_clear _ X Hwf1) as Hnone.
  set (st2 := match typingTimeouts (setIsTyping X true st) !! X with
              | Some h => clearTimeout h (setIsTyping X true st)
              | None => setIsTyping X true st
              end) in *.
  assert (typingTimeouts st2 = typingTimeouts st ∧ next_handle st2 = next_handle st
          ∧ clock st2 = clock st ∧ isTyping st2 = <[X := true]> (isTyping st))
    as (Htt & Hnext & Hclock & Htyping).
  { subst st2. by destruct (typingTimeouts _ !! _). }
  unfold armed, setTimeout. cbn. rewrite Htt, Hnext, Hclock, Htyping.
  split_and!.
  - done.
  - by rewrite lookup_insert_eq.
  - intros u Hu. destruct (decide (X = u)) as [|Hne]; [done|].
    rewrite lookup_insert_ne in Hu by done. apply Hwf in Hu. lia.
  - lia.
  - intros tm Hin Hsender. apply elem_of_app in Hin as [Hin|Hin].
    + by apply Hnone in Hin.
    + by apply list_elem_of_singleton in Hin.
  - left. split_and!; [lia | | by rewrite lookup_insert_eq].
    apply elem_of_app. right. by apply list_elem_of_singleton.
Qed.

Lemma armed_advance t st X tmX : armed X tmX st → armed X tmX (advance t st).
Proof.
  intros (Hs & Hreg & Honly & Hlt & Huniq & Hphase).
  unfold armed, advance. cbn.
  split_and!; [done | done | done | done | |].
  - intros tm Hin. apply list_elem_of_filter in Hin as [_ Hin]. by apply Huniq.
  - destruct Hphase as [(Hbefore & Hin & Hon)|(Hafter & Hoff)].
    + destruct (decide (due tmX ≤ clock st `max` t)) as [Hdue|Hdue].
      * right. split; [done|]. rewrite <- Hs. apply fired_clears.
        by apply list_elem_of_filter.
      * left. split_and!; [lia | by apply list_elem_of_filter |].
        rewrite fired_others; [done|].
        intros tm Htm HX. apply list_elem_of_filter in Htm as [Htm_due Htm].
        apply Huniq in Htm; [|done]. by subst.
    + right. split; [lia|]. by apply fired_keeps_false.
Qed.

Lemma armed_clearTimeout h st X tmX :
  h ≠ handle tmX → armed X tmX st → armed X tmX (clearTimeout h st).
Proof.
  intros Hh (Hs & Hreg & Honly & Hlt & Huniq & Hphase).
  unfold armed, clearTimeout. cbn.
  split_and!; [done | done | done | done | |].
  - intros tm Hin. apply list_elem_of_filter in Hin as [_ Hin]. by apply Huniq.
  - destruct Hphase as [(Hbefore & Hin & Hon)|?]; [left|by right].
    split_and!; [done | | done]. apply list_elem_of_filter. split; [congruence|done].
Qed.

Lemma armed_setIsTyping u b st X tmX :
  u ≠ X → armed X tmX st → armed X tmX (setIsTyping u b st).
Proof.
  intros Hu (Hs & Hreg & Honly & Hlt & Huniq & Hphase).
  unfold armed, setIsTyping. cbn. rewrite lookup_insert_ne by done. done.
Qed.

Lemma armed_setTimeout u d st X tmX :
  u ≠ X → armed X tmX st → armed X tmX (setTimeout u d st).
Proof.
  intros Hu (Hs & Hreg & Honly & Hlt & Huniq & Hphase).
  unfold armed, setTimeout. cbn.
  split_and!.
  - done.
  - by rewrite lookup_insert_ne.
  - intros v Hv. destruct (decide (u = v)) as [<-|Hne].
    + rewrite lookup_insert_eq in Hv. simplify_eq. lia.
    + rewrite lookup_insert_ne in Hv by done. by apply Honly.
  - lia.
  - intros tm Hin HX. apply elem_of_app in Hin as [Hin|Hin]; [by apply Huniq|].
    apply list_elem_of_singleton in Hin. by subst.
  - destruct Hphase as [(Hbefore & Hin & Hon)|?]; [left|by right].
    split_and!; [done | | done]. apply elem_of_app. by left.
Qed.

(** The handle registered for another user is not the one of [tmX]. *)
Lemma armed_other_handle st X tmX u h :
  armed X tmX st → u ≠ X → typingTimeouts st !! u = Some h → h ≠ handle tmX.
Proof. intros (_ & _ & Honly & _) Hu Hreg ->. by apply Honly in Hreg. Qed.

Lemma armed_handleTyping data st X tmX :
  data_userId data ≠ X → armed X tmX st → armed X tmX (handleTyping team me data st).
Proof.
  intros Hu Harmed. unfold handleTyping.
  destruct (_ && _); [|done].
  apply (armed_setIsTyping (data_userId data) (data_isTyping data)) in Harmed; [|done].
  assert (armed X tmX
            (match typingTimeouts
                     (setIsTyping (data_userId data) (data_isTyping data) st)
                     !! data_userId data with
             | Some h => clearTimeout h
                           (setIsTyping (data_userId data) (data_isTyping data) st)
             | None => setIsTyping (data_userId data) (data_isTyping data) st
             end)) as Harmed2.
  { destruct (typingTimeouts _ !! _) as [h|] eqn:Hreg; [|done].
    apply armed_clearTimeout; [|done]. by eapply armed_other_handle. }
  destruct (data_isTyping data); [|done].
  by apply armed_setTimeout.
Qed.

Lemma armed_setMessages msg st X tmX : armed X tmX st → armed X tmX (setMessages msg st).
Proof. done. Qed.

Lemma armed_handleNewMessage data st X tmX :
  msg_senderId data ≠ X → armed X tmX st → armed X tmX (handleNewMessage team data st).
Proof.
  intros Hu Harmed. unfold handleNewMessage.
  case_decide; [|done].
  destruct (typingTimeouts _ !! _) as [h|] eqn:Hreg; [|done].
  apply armed_setIsTyping; [done|].
  apply armed_clearTimeout; [|done].
  eapply armed_other_handle; [|done|done]. by apply armed_setMessages.
Qed.

(** *** An indicator with no timer left *)

Lemma stuck_advance t st X : stuck X st → stuck X (advance t st).
Proof.
  intros [Hon Hnone]. split.
  - cbn [isTyping advance]. rewrite fired_others; [done|].
    intros tm Hin. apply list_elem_of_filter in Hin as [_ Hin]. by apply Hnone.
  - intros tm Hin. apply list_elem_of_filter in Hin as [_ Hin]. by apply Hnone.
Qed.

Lemma stuck_setIsTyping u b st X : u ≠ X → stuck X st → stuck X (setIsTyping u b st).
Proof.
  intros Hu [Hon Hnone]. split; [|done].
  cbn [isTyping setIsTyping]. by rewrite lookup_insert_ne.
Qed.

Lemma stuck_clearTimeout h st X : stuck X st → stuck X (clearTimeout h st).
Proof.
  intros [Hon Hnone]. split; [done|].
  intros tm Hin. apply list_elem_of_filter in Hin as [_ Hin]. by apply Hnone.
Qed.

Lemma stuck_setTimeout u d st X : u ≠ X → stuck X st → stuck X (setTimeout u d st).
Proof.
  intros Hu [Hon Hnone]. split; [done|].
  intros tm Hin. cbn [timers setTimeout] in Hin.
  apply elem_of_app in Hin as [Hin|Hin]; [by apply Hnone|].
  apply list_elem_of_singleton in Hin. by subst.
Qed.

Lemma stuck_handleTyping data st X :
  data_userId data ≠ X → stuck X st → stuck X (handleTyping team me data st).
Proof.
  intros Hu Hstuck. unfold handleTyping.
  destruct (_ && _); [|done].
  apply (stuck_setIsTyping (data_userId data) (data_isTyping data)) in Hstuck; [|done].
  assert (stuck X
            (match typingTimeouts
                     (setIsTyping (data_userId data) (data_isTyping data) st)
                     !! data_userId data with
             | Some h => clearTimeout h
                           (setIsTyping (data_userId data) (data_isTyping data) st)
             | None => setIsTyping (data_userId data) (data_isTyping data) st
             end)) as Hstuck2.
  { destruct (typingTimeouts _ !! _) as [h|]; [|done]. by apply stuck_clearTimeout. }
  destruct (data_isTyping data); [|done].
  by apply stuck_setTimeout.
Qed.

Lemma stuck_handleNewMessage data st X :
  msg_senderId data ≠ X → stuck X st → stuck X (handleNewMessage team data st).
Proof.
  intros Hu Hstuck. unfold handleNewMessage.
  case_decide; [|done].
  destruct (typingTimeouts _ !! _) as [h|]; [|done].
  apply stuck_setIsTyping; [done|]. by apply stuck_clearTimeout.
Qed.

(** *** The clock *)

Lemma clock_handleTyping data st : clock (handleTyping team me data st) = clock st.
Proof.
  unfold handleTyping. destruct (_ && _); [|done].
  destruct (typingTimeouts _ !! _), (data_isTyping data); done.
Qed.

Lemma clock_handleNewMessage data st : clock (handleNewMessage team data st) = clock st.
Proof.
  unfold handleNewMessage. case_decide; [|done].
  by destruct (typingTimeouts _ !! _).
Qed.

End typing_handlers.

Section typing_runs.
Import TeamChat.

Implicit Types (st : State) (tm : Timer).

(** *** The cleanup of the effect *)

Lemma clear_all (hs : list positive) st :
  foldl (λ st h, clearTimeout h st) st hs
  = {| messages := messages st; isTyping := isTyping st;
       typingTimeouts := typingTimeouts st;
       timers := filter (λ tm, handle tm ∉ hs) (timers st);
       next_handle := next_handle st; clock := clock st;
       room := room st; self := self st |}.
Proof.
  revert st. induction hs as [|h hs IH]; intros st.
  - destruct st as [? ? ? l ? ? ? ?]. cbn. f_equal.
    induction l as [|tm l IHl]; [done|].
    rewrite filter_cons, decide_True by apply not_elem_of_nil. by rewrite <- IHl.
  - cbn [foldl]. rewrite IH. unfold clearTimeout. cbn. f_equal.
    rewrite list_filter_filter. apply list_filter_iff.
    intros tm. rewrite not_elem_of_cons. tauto.
Qed.

(** The cleanup clears the timers and nothing else. *)
Lemma cleanup_fields st :
  isTyping (cleanup st) = isTyping st
  ∧ typingTimeouts (cleanup st) = typingTimeouts st
  ∧ next_handle (cleanup st) = next_handle st
  ∧ clock (cleanup st) = clock st
  ∧ messages (cleanup st) = messages st
  ∧ ∀ tm, tm ∈ timers (cleanup st) → tm ∈ timers st.
Proof.
  unfold cleanup. rewrite clear_all. cbn. split_and!; try done.
  intros tm Hin. by apply list_elem_of_filter in Hin as [_ Hin].
Qed.

(** Every armed timer is registered, so the cleanup leaves none. *)
Lemma cleanup_no_timers st : wf st → timers (cleanup st) = [].
Proof.
  intros [Hreg _]. unfold cleanup. rewrite clear_all. cbn [timers].
  induction (timers st) as [|tm l IH]; [done|].
  rewrite filter_cons, decide_False.
  - apply IH. intros tm' Hin. apply Hreg, elem_of_cons. by right.
  - intros Hnot. apply Hnot.
    apply (list_elem_of_fmap_2' snd _ (sender tm, handle tm)); [|done].
    apply elem_of_map_to_list, Hreg, elem_of_cons. by left.
Qed.

Lemma wf_cleanup st : wf st → wf (cleanup st).
Proof.
  intros [H1 H2].
  destruct (cleanup_fields st) as (_ & Hreg & Hnext & _ & _ & Htimers).
  split.
  - intros tm Hin. rewrite Hreg. by apply H1, Htimers.
  - intros u h. rewrite Hreg, Hnext. apply H2.
Qed.

Lemma wf_subscribe team me st : wf st → wf (subscribe team me st).
Proof. done. Qed.

Lemma wf_receive tev st : wf st → wf (receive tev st).
Proof.
  intros Hwf. unfold receive. apply (wf_advance tev.1) in Hwf.
  destruct tev.2.
  - by apply wf_handleTyping.
  - by apply wf_handleNewMessage.
  - by apply wf_subscribe, wf_cleanup.
Qed.

Lemma wf_receive_all evs st : wf st → wf (receive_all evs st).
Proof.
  revert st. induction evs as [|tev evs IH]; intros st Hwf; [done|].
  apply IH. by apply wf_receive.
Qed.

(** Once the timer of [X] has run, the cleanup changes nothing for
    [X]. *)
Lemma armed_cleanup st X tmX :
  due tmX ≤ clock st → armed X tmX st → armed X tmX (cleanup st).
Proof.
  intros Hdue (Hs & Hreg & Honly & Hlt & Huniq & Hphase).
  destruct (cleanup_fields st) as (Hon & Hreg' & Hnext & Hclock & _ & Htimers).
  unfold armed. rewrite Hon, Hreg', Hnext, Hclock.
  split_and!; [done | done | done | done | |].
  - intros tm Hin. by apply Huniq, Htimers.
  - destruct Hphase as [(Hbefore & _)|Hafter]; [lia|by right].
Qed.

(** While the timer of [X] is armed, the cleanup clears it and leaves
    the indicator on. *)
Lemma armed_cleanup_stuck st X tmX :
  wf st → clock st < due tmX → armed X tmX st → stuck X (cleanup st).
Proof.
  intros Hwf Hbefore (_ & _ & _ & _ & _ & Hphase).
  destruct (cleanup_fields st) as (Hon & _).
  split.
  - rewrite Hon. destruct Hphase as [(_ & _ & Htrue)|(Hafter & _)]; [done|lia].
  - rewrite cleanup_no_timers by done. intros tm Hin. by apply elem_of_nil in Hin.
Qed.

Lemma stuck_cleanup st X : stuck X st → stuck X (cleanup st).
Proof.
  intros [Hon Hnone].
  destruct (cleanup_fields st) as (Hon' & _ & _ & _ & _ & Htimers).
  split; [by rewrite Hon'|]. intros tm Hin. by apply Hnone, Htimers.
Qed.

(** *** Runs *)

Lemma armed_receive tev st X tmX :
  origin tev.2 ≠ Some X →
  (∀ team me, tev.2 = EFFECT_RERUN team me → due tmX ≤ tev.1) →
  armed X tmX st → armed X tmX (receive tev st).
Proof.
  intros Hu Hrerun Harmed. unfold receive.
  apply (armed_advance tev.1) in Harmed.
  destruct tev.2 as [data|data|team me]; cbn [origin] in Hu.
  - apply armed_handleTyping; [congruence|done].
  - apply armed_handleNewMessage; [congruence|done].
  - assert (armed X tmX (cleanup (advance tev.1 st))) as Hcleaned; [|done].
    apply armed_cleanup; [|done].
    specialize (Hrerun team me eq_refl). cbn [clock advance]. lia.
Qed.

Lemma armed_receive_all evs st X tmX :
  Forall (λ tev, origin tev.2 ≠ Some X) evs →
  Forall (λ tev, ∀ team me, tev.2 = EFFECT_RERUN team me → due tmX ≤ tev.1) evs →
  armed X tmX st → armed X tmX (receive_all evs st).
Proof.
  intros Hevs. revert st.
  induction Hevs as [|tev evs Hu _ IH]; intros st Hreruns Harmed; [done|].
  apply Forall_cons in Hreruns as [Hrerun Hreruns].
  apply IH; [done|]. by apply armed_receive.
Qed.

Lemma stuck_receive tev st X :
  origin tev.2 ≠ Some X → stuck X st → stuck X (receive tev st).
Proof.
  intros Hu Hstuck. unfold receive.
  apply (stuck_advance tev.1) in Hstuck.
  destruct tev.2 as [data|data|team me]; cbn [origin] in Hu.
  - apply stuck_handleTyping; [congruence|done].
  - apply stuck_handleNewMessage; [congruence|done].
  - assert (stuck X (cleanup (advance tev.1 st))) as Hcleaned; [|done].
    by apply stuck_cleanup.
Qed.

Lemma stuck_receive_all evs st X :
  Forall (λ tev, origin tev.2 ≠ Some X) evs → stuck X st → stuck X (receive_all evs st).
Proof.
  intros Hevs. revert st. induction Hevs as [|tev evs Hu _ IH]; intros st Hstuck; [done|].
  apply IH. by apply stuck_receive.
Qed.

Lemma clock_receive tev st : clock (receive tev st) = clock st `max` tev.1.
Proof.
  unfold receive. destruct tev.2.
  - by rewrite clock_handleTyping.
  - by rewrite clock_handleNewMessage.
  - cbn [clock subscribe]. by destruct (cleanup_fields (advance tev.1 st)) as (_ & _ & _ & -> & _).
Qed.

Lemma clock_receive_all_lt evs st d :
  clock st < d → Forall (λ tev, tev.1 < d) evs → clock (receive_all evs st) < d.
Proof.
  intros Hst Hevs. revert st Hst.
  induction Hevs as [|tev evs Ht _ IH]; intros st Hst; [done|].
  apply IH. rewrite clock_receive. lia.
Qed.

(** *** What an observer sees *)

Lemma armed_observes t st X tmX :
  armed X tmX st →
  (due tmX ≤ t → observes t st X = Some false)
  ∧ (clock st < due tmX → t < due tmX → observes t st X = Some true).
Proof.
  intros Harmed. unfold observes.
  apply (armed_advance t) in Harmed as (_ & _ & _ & _ & _ & Hphase).
  assert (clock (advance t st) = clock st `max` t) as Hclock by done.
  split.
  - intros Hdue. destruct Hphase as [(Hbefore & _)|(_ & Hoff)]; [lia|done].
  - intros Hst Ht. destruct Hphase as [(_ & _ & Hon)|(Hafter & _)]; [done|lia].
Qed.

Lemma stuck_observes t st X : stuck X st → observes t st X = Some true.
Proof. intros Hstuck. by apply (stuck_advance t) in Hstuck as [Hon _]. Qed.

(** The state right after a typing signal [true] of [X], received at
    [t0] by the handlers of the running effect. *)
Lemma armed_after_signal history team me X t0 :
  let st0 := receive_all history (init team me) in
  Some X ≠ self st0 →
  clock st0 ≤ t0 →
  let signal := TYPING {| data_userId := X; data_teamId := room st0;
                          data_isTyping := true |} in
  wf (receive (t0, signal) st0)
  ∧ clock (receive (t0, signal) st0) = t0
  ∧ armed X {| handle := next_handle st0; due := t0 + 3000; sender := X |}
      (receive (t0, signal) st0).
Proof.
  intros st0 Hme Hclock signal.
  assert (wf st0) as Hwf0 by apply wf_receive_all, wf_init.
  assert (clock (advance t0 st0) = t0) as Ht0 by (cbn; lia).
  split_and!.
  - by apply wf_receive.
  - rewrite clock_receive. cbn [fst]. lia.
  - pose proof (armed_signal (room st0) (self st0) (advance t0 st0) X
                  (wf_advance t0 st0 Hwf0) Hme) as Harmed.
    rewrite Ht0 in Harmed. exact Harmed.
Qed.

(** Within one run of the socket effect the indicator expires: a
    typing signal [true] of another user X is received at [t0]; then,
    whatever signals and messages of other users follow, and as long
    as the effect does not run again before [t0 + 3000], X is shown as
    typing until [t0 + 3000] and as not typing from then on. *)
Lemma typing_expires_within_run history later team me X t0 t :
  let st0 := receive_all history (init team me) in
  Some X ≠ self st0 →
  clock st0 ≤ t0 →
  Forall (λ tev, origin tev.2 ≠ Some X) later →
  Forall (λ tev, ∀ team' me', tev.2 = EFFECT_RERUN team' me' → t0 + 3000 ≤ tev.1) later →
  let signal := TYPING {| data_userId := X; data_teamId := room st0;
                          data_isTyping := true |} in
  let st := receive_all later (receive (t0, signal) st0) in
  (t0 + 3000 ≤ t → observes t st X = Some false)
  ∧ (Forall (λ tev, tev.1 < t0 + 3000) later → t < t0 + 3000 →
     observes t st X = Some true).
Proof.
  intros st0 Hme Hclock Hlater Hreruns signal st. subst st signal st0.
  destruct (armed_after_signal history team me X t0 Hme Hclock) as (Hwf & Ht0 & Harmed).
  apply (armed_receive_all later) in Harmed; [|done|done].
  destruct (armed_observes t _ _ _ Harmed) as [Hoff Hon].
  split; [exact Hoff|].
  intros Hearly Ht. apply Hon; [|done].
  apply clock_receive_all_lt; [|done].
  cbn [due]. rewrite Ht0. lia.
Qed.

(** When the socket effect runs again before the timer of X is due,
    its cleanup clears the timer and leaves the indicator on: X is
    shown as typing from then on, until a signal or a message of X
    arrives. *)
Lemma typing_stuck_after_rerun history later team me team' me' X t0 t1 t :
  let st0 := receive_all history (init team me) in
  Some X ≠ self st0 →
  clock st0 ≤ t0 →
  t0 ≤ t1 < t0 + 3000 →
  Forall (λ tev, origin tev.2 ≠ Some X) later →
  let signal := TYPING {| data_userId := X; data_teamId := room st0;
                          data_isTyping := true |} in
  observes t
    (receive_all later
       (receive (t1, EFFECT_RERUN team' me') (receive (t0, signal) st0))) X
  = Some true.
Proof.
  intros st0 Hme Hclock Ht1 Hlater signal. subst signal st0.
  destruct (armed_after_signal history team me X t0 Hme Hclock) as (Hwf & Ht0 & Harmed).
  apply stuck_observes, stuck_receive_all; [done|].
  unfold receive at 1. cbn [fst snd].
  match goal with
  | |- stuck X (subscribe _ _ (cleanup ?st1)) =>
      assert (stuck X (cleanup st1)) as Hstuck; [|done]
  end.
  eapply (armed_cleanup_stuck _ X
            {| handle := next_handle (receive_all history (init team me));
               due := t0 + 3000; sender := X |}).
  - by apply wf_advance.
  - cbn [due clock advance]. rewrite Ht0. lia.
  - by apply armed_advance.
Qed.

End typing_runs.

(** ** Concrete runs *)

Section runs.
Import Scenario.


Lemma served_healthy t key : healthy (served t key).
Proof. by split. Qed.


Lemma fetches_i1 st act t key :
  act ∈ ["accept"; "reject"; "cancel"] →
  resolve_fetches (resolve "i-1" act) (served t key) (holding st) "i-1" act
    (invitation_bob st).
Proof. intros Hact. by split_and!. Qed.

End runs.


(** C2, as stated, fails: for an accepted invitation, an accept by a
    user who is not the invitee is answered PermissionDenied, neither
    AlreadyResolved nor Expired. *)
Lemma resolve_any_user_counterexample :
  ¬ (∀ user req env (s : Store) id act invitation,
       resolve_fetches req env s id act invitation →
       inv_status invitation ≠ pending →
       (Invitations.PUT (Some user) req env s).1 = AlreadyResolved (inv_status invitation)
       ∨ (Invitations.PUT (Some user) req env s).1 = Expired).
Proof.
  intros H.
  destruct (H Scenario.mallory (Scenario.resolve "i-1" "accept") (Scenario.served 2000 "k-0")
              (Scenario.holding accepted) "i-1" "accept" (Scenario.invitation_bob accepted))
    as [E|E]; [apply fetches_i1; rewrite !elem_of_cons; tauto | done | ..];
    vm_compute in E; discriminate E.
Qed.

(** Bob accepts, then tries again, and Alice tries to cancel: both
    fail and leave the store as it was. *)
Lemma resolve_settled_fails_witness :
  Invitations.PUT (Some Scenario.bob) (Scenario.resolve "i-1" "accept")
    (Scenario.served 2100 "k-0") Scenario.after_accept
  = (AlreadyResolved accepted, Scenario.after_accept)
  ∧ (Invitations.PUT (Some Scenario.alice) (Scenario.resolve "i-1" "cancel")
       (Scenario.served 2200 "k-0") Scenario.after_accept).2
    = Scenario.after_accept.
Proof.
  assert (just_resolved Scenario.after_accept "i-1") as Hs.
  { exists (Some Scenario.bob), (Scenario.resolve "i-1" "accept"),
      (Scenario.served 2000 "k-0"), (Scenario.holding pending). by split_and!. }
  split.
  - destruct (resolve_settled_fails Scenario.after_accept "i-1" (or_intror Hs)
                (Some Scenario.bob) (Scenario.resolve "i-1" "accept")
                (Scenario.served 2100 "k-0") eq_refl)
      as (_ & Hsame & Hreply).
    apply injective_projections; [|exact Hsame].
    rewrite (Hreply Scenario.bob "accept"
               (set_fields (Some accepted) (Some 2000) (Scenario.invitation_bob pending))
               eq_refl).
    + by rewrite decide_True by (by split).
    + split_and!; try done. rewrite !elem_of_cons. tauto.
  - apply (resolve_settled_fails Scenario.after_accept "i-1" (or_intror Hs)
             (Some Scenario.alice) (Scenario.resolve "i-1" "cancel")
             (Scenario.served 2200 "k-0") eq_refl).
Defined.

(** C3, as stated, fails: when the final update of the invitation
    fails, accept returns an error and yet the membership row and the
    notification are in the store. *)
Lemma accept_not_atomic_counterexample :
  ¬ (∀ auth req env (s : Store),
       Invitations.action req = Some "accept" →
       is_success (Invitations.PUT auth req env s).1 = false →
       team_members (Invitations.PUT auth req env s).2 = team_members s
       ∧ notifications (Invitations.PUT auth req env s).2 = notifications s).
Proof.
  intros H.
  destruct (H (Some Scenario.bob) (Scenario.resolve "i-1" "accept")
              (Scenario.update_fails 2000) (Scenario.holding pending) eq_refl eq_refl)
    as [E _].
  vm_compute in E. discriminate E.
Qed.

(** The failure of the final update, at the same input: an error of
    the third kind. *)
Lemma accept_failure_outcomes_witness :
  is_success
    (Invitations.PUT (Some Scenario.bob) (Scenario.resolve "i-1" "accept")
       (Scenario.update_fails 2000) (Scenario.holding pending)).1 = false
  ∧ ((Invitations.PUT (Some Scenario.bob) (Scenario.resolve "i-1" "accept")
        (Scenario.update_fails 2000) (Scenario.holding pending)).2
     = Scenario.holding pending
     ∨ (∃ id,
          Invitations.invitationId (Scenario.resolve "i-1" "accept") = Some id
          ∧ (Invitations.PUT (Some Scenario.bob) (Scenario.resolve "i-1" "accept")
               (Scenario.update_fails 2000) (Scenario.holding pending)).1 = Expired
          ∧ (Invitations.PUT (Some Scenario.bob) (Scenario.resolve "i-1" "accept")
               (Scenario.update_fails 2000) (Scenario.holding pending)).2
            = update_invitation id (Some expired) None (Scenario.holding pending))
     ∨ (∃ id invitation,
          Invitations.invitationId (Scenario.resolve "i-1" "accept") = Some id
          ∧ Invitations.invitation_by_id (Scenario.holding pending) id = Some invitation
          ∧ inv_status invitation = pending
          ∧ store_error (Scenario.update_fails 2000) MemberError = false
          ∧ ((Invitations.PUT (Some Scenario.bob) (Scenario.resolve "i-1" "accept")
                (Scenario.update_fails 2000) (Scenario.holding pending)).1
             = InternalServerError
             ∧ Invitations.team_by_id (Scenario.holding pending) (inv_team_id invitation)
               = None
             ∧ (Invitations.PUT (Some Scenario.bob) (Scenario.resolve "i-1" "accept")
                  (Scenario.update_fails 2000) (Scenario.holding pending)).2
               = insert_member (accepted_member invitation (Scenario.update_fails 2000))
                   (Scenario.holding pending)
             ∨ (Invitations.PUT (Some Scenario.bob) (Scenario.resolve "i-1" "accept")
                  (Scenario.update_fails 2000) (Scenario.holding pending)).1
               = Reply 500 (Error "Failed to update invitation")
               ∧ store_error (Scenario.update_fails 2000) UpdateError = true
               ∧ (Invitations.PUT (Some Scenario.bob) (Scenario.resolve "i-1" "accept")
                    (Scenario.update_fails 2000) (Scenario.holding pending)).2
                 = create_notification (member_added invitation)
                     (insert_member
                        (accepted_member invitation (Scenario.update_fails 2000))
                        (Scenario.holding pending))))).
Proof.
  split; [reflexivity|].
  apply accept_failure_outcomes; reflexivity.
Defined.

(** Bob accepts Alice's invitation. *)
Lemma accept_pending_invitation_witness :
  (Invitations.PUT (Some Scenario.bob) (Scenario.resolve "i-1" "accept")
     (Scenario.served 2000 "k-0") (Scenario.holding pending)).1
  = Reply 200 (Resolved "Invitation accepted successfully" "accept" "Research")
  ∧ team_members Scenario.after_accept
    = [ {| member_team_id := "t-research"; member_user_id := "u-bob";
           member_role := "editor"; member_joined_at := Some 2000;
           member_created_at := None |} ]
  ∧ (∃ invitation',
       Invitations.invitation_by_id Scenario.after_accept "i-1" = Some invitation'
       ∧ inv_status invitation' = accepted)
  ∧ (∃ n, notifications Scenario.after_accept = [n]
          ∧ notification_type n = "member_added"
          ∧ target_user_id n = "u-alice").
Proof.
  destruct (accept_pending_invitation Scenario.bob (Scenario.resolve "i-1" "accept")
              (Scenario.served 2000 "k-0") (Scenario.holding pending) "i-1"
              (Scenario.invitation_bob pending)
              (Scenario.owned_by_alice "t-research" "Research"))
    as (Hreply & Hmembers & Hstatus & _ & Hnotified & _).
  - apply fetches_i1. rewrite !elem_of_cons. tauto.
  - apply served_healthy.
  - reflexivity.
  - simpl. lia.
  - reflexivity.
  - reflexivity.
  - split_and!; [exact Hreply | exact Hmembers | exact Hstatus | exact Hnotified].
Defined.

(** Mallory cannot accept Bob's invitation, nor cancel it. *)
Lemma resolve_permission_denied_witness :
  Invitations.PUT (Some Scenario.mallory) (Scenario.resolve "i-1" "accept")
    (Scenario.served 2000 "k-0") (Scenario.holding pending)
  = (PermissionDenied_respond, Scenario.holding pending).
Proof.
  apply (resolve_permission_denied Scenario.mallory (Scenario.resolve "i-1" "accept")
           (Scenario.served 2000 "k-0") (Scenario.holding pending) "i-1" "accept"
           (Scenario.invitation_bob pending)).
  - apply fetches_i1. rewrite !elem_of_cons. tauto.
  - reflexivity.
  - by left.
  - done.
Defined.




(** ** Where the handlers fall short of the specification *)

(** The listing returns rows of the store as they are stored. *)
Lemma GET_reports_stored auth q env (s : Store) rows :
  (Invitations.GET auth q env s).1 = Reply 200 (Invitations rows) →
  (Invitations.GET auth q env s).2 = s ∧ ∀ i, i ∈ rows → i ∈ team_invitations s.
Proof.
  unfold Invitations.GET.
  destruct auth as [user|]; [|done].
  destruct (negb (admin_client env)); [done|].
  destruct (store_error env ListError); [done|].
  intros [= <-]. split; [done|].
  intros i Hi. rewrite merge_sort_Permutation in Hi.
  repeat case_decide;
    repeat (apply list_elem_of_filter in Hi as [_ Hi]); done.
Qed.

(** C7, at a failing input: Bob's invitation was due at 5000 and the
    clock reads 9000.  The listing of Bob's pending invitations shows
    it, status pending; and a new invitation of Bob to the team is
    refused for the pending one.  Only a resolve would flip it to
    expired. *)
Theorem list_reports_overdue_as_pending :
  inv_expires_at (Scenario.invitation_bob pending) < now (Scenario.served 9000 "i-2")
  ∧ Invitations.GET (Some Scenario.bob) (Scenario.listing "received" "pending")
      (Scenario.served 9000 "i-2") (Scenario.holding pending)
    = (Reply 200 (Invitations [Scenario.invitation_bob pending]), Scenario.holding pending)
  ∧ Invitations.GET (Some Scenario.bob) (Scenario.listing "received" "expired")
      (Scenario.served 9000 "i-2") (Scenario.holding pending)
    = (Reply 200 (Invitations []), Scenario.holding pending)
  ∧ Invitations.POST (Some Scenario.alice)
      (Scenario.invite "t-research" "bob@lab.org" "editor")
      (Scenario.served 9000 "i-2") (Scenario.holding pending)
    = (DuplicatePending, Scenario.holding pending)
  ∧ Invitations.PUT (Some Scenario.bob) (Scenario.resolve "i-1" "accept")
      (Scenario.served 9000 "i-2") (Scenario.holding pending)
    = (Expired, Scenario.holding expired).
Proof. split_and!; [simpl; lia | by vm_compute..]. Qed.

(** ** Who can add a member *)









(** ** Where the chat component falls short *)

(** C10, at a failing input.  Mallory starts typing when the clock of
    Bob's component reads 0, and falls silent.  Within one run of the
    socket effect the indicator goes off at 3000; a message of Mallory
    clears it at once.  But when the effect runs again at 1000, its
    cleanup clears the timer and leaves the indicator on: no timer is
    armed, and Mallory is shown as typing at 3000 and at any time
    after, whatever other users do.  The same happens when the effect
    runs again because the component is given another team. *)
Theorem typing_stuck_after_effect_rerun :
  TeamChat.observes 2999
    (TeamChat.receive_all [ (0, Scenario.typing "u-mallory" true) ] Scenario.bobs_chat)
    "u-mallory" = Some true
  ∧ TeamChat.observes 3000
      (TeamChat.receive_all [ (0, Scenario.typing "u-mallory" true) ] Scenario.bobs_chat)
      "u-mallory" = Some false
  ∧ TeamChat.observes 1000
      (TeamChat.receive_all
         [ (0, Scenario.typing "u-mallory" true);
           (1000, Scenario.message "u-mallory" "done") ] Scenario.bobs_chat)
      "u-mallory" = Some false
  ∧ TeamChat.timers Scenario.rerun_while_typing = []
  ∧ TeamChat.observes 3000 Scenario.rerun_while_typing "u-mallory" = Some true
  ∧ TeamChat.observes 3000
      (TeamChat.receive_all
         [ (0, Scenario.typing "u-mallory" true);
           (1000, TeamChat.EFFECT_RERUN "t-writing" (Some "u-bob")) ] Scenario.bobs_chat)
      "u-mallory" = Some true
  ∧ (∀ later t,
       Forall (λ tev : Z * TeamChat.Event, TeamChat.origin tev.2 ≠ Some "u-mallory") later →
       TeamChat.observes t (TeamChat.receive_all later Scenario.rerun_while_typing)
         "u-mallory" = Some true).
Proof.
  assert (∀ later t,
            Forall (λ tev : Z * TeamChat.Event,
                      TeamChat.origin tev.2 ≠ Some "u-mallory") later →
            TeamChat.observes t (TeamChat.receive_all later Scenario.rerun_while_typing)
              "u-mallory" = Some true) as Hstuck.
  { intros later t Hlater.
    apply (typing_stuck_after_rerun [] later "t-research" (Some "u-bob")
             "t-research" (Some "u-bob") "u-mallory" 0 1000 t);
      [done | done | lia | done]. }
  split_and!.
  - apply (typing_expires_within_run [] [] "t-research" (Some "u-bob") "u-mallory" 0 2999);
      [done | done | done | done | done | lia].
  - apply (typing_expires_within_run [] [] "t-research" (Some "u-bob") "u-mallory" 0 3000);
      [done | done | done | done | lia].
  - by vm_compute.
  - by vm_compute.
  - apply (Hstuck [] 3000). constructor.
  - apply (typing_stuck_after_rerun [] [] "t-research" (Some "u-bob")
             "t-writing" (Some "u-bob") "u-mallory" 0 1000 3000);
      [done | done | lia | done].
  - exact Hstuck.
Qed.


(** * Further properties of the handlers *)

(** ** Listing invitations *)

Lemma GET_rows user q env (s : Store) rows :
  (Invitations.GET (Some user) q env s).1 = Reply 200 (Invitations rows) →
  rows = merge_sort Invitations.newest_first
           (filter (listed_for user q) (team_invitations s)).
Proof.
  unfold Invitations.GET.
  destruct (negb (admin_client env)); [done|].
  destruct (store_error env ListError); [done|].
  intros [= <-]. f_equal.
  repeat case_decide;
    rewrite ?list_filter_filter; apply list_filter_iff; intros i;
    unfold listed_for; cbv zeta; tauto.
Qed.

(** X1. A listing that succeeds returns exactly the stored invitations
    the query asks for, each as often as it is stored; every one of
    them has the caller as inviter or invitee; and the store is left
    as it was. *)
Theorem listing_content user q env (s : Store) rows :
  (Invitations.GET (Some user) q env s).1 = Reply 200 (Invitations rows) →
  rows ≡ₚ filter (listed_for user q) (team_invitations s)
  ∧ Forall (λ i, inv_inviter_id i = user_id user ∨ inv_invitee_id i = user_id user) rows
  ∧ (Invitations.GET (Some user) q env s).2 = s.
Proof.
  intros Hrows. pose proof (GET_rows _ _ _ _ _ Hrows) as ->.
  split_and!.
  - apply merge_sort_Permutation.
  - apply Forall_forall. intros i Hi.
    rewrite merge_sort_Permutation in Hi.
    apply list_elem_of_filter in Hi as [(Hsent & Hreceived & Hall & _) _].
    destruct (decide (or_else (Invitations.type q) "all" = "sent"));
      destruct (decide (or_else (Invitations.type q) "all" = "received")); auto.
  - by apply GET_reports_stored in Hrows as [? _].
Qed.

(** X2. A listing that succeeds is ordered newest first: no row is
    followed, anywhere later in the list, by a row created after it. *)
Theorem listing_newest_first user q env (s : Store) rows :
  (Invitations.GET (Some user) q env s).1 = Reply 200 (Invitations rows) →
  StronglySorted (λ a b, inv_created_at b ≤ inv_created_at a) rows.
Proof.
  intros Hrows. pose proof (GET_rows _ _ _ _ _ Hrows) as ->.
  apply (StronglySorted_merge_sort Invitations.newest_first).
Qed.

(** ** Creating an invitation: all or nothing *)

Section create_outcomes.
Import Invitations.

(** A create that succeeds went through every check. *)
Lemma POST_success_inv auth req env (s : Store) :
  is_success (POST auth req env s).1 = true →
  ∃ user team email invitee t,
    auth = Some user
    ∧ create_eligible user req env s team email invitee
    ∧ single (pending_for s team (profile_id invitee)) = None
    ∧ RateLimit.check_invitation_limit s (user_id user) team
        (RateLimit.day_of (now env)) = true
    ∧ team_by_id s team = Some t
    ∧ store_error env InviteError = false.
Proof.
  unfold POST.
  destruct auth as [user|]; [|done].
  destruct (teamId req) as [team|] eqn:Hteam; [|done].
  destruct (inviteeEmail req) as [email|] eqn:Hemail; [|done].
  destruct (truthy (Some team)) eqn:Ht; [|done].
  destruct (truthy (Some email)) eqn:He; [|done]. cbn [negb orb].
  destruct (bool_decide (default "viewer" (role req) ∈ ["viewer"; "editor"; "admin"]))
    eqn:Hrole; [|done].
  apply bool_decide_eq_true in Hrole. cbn [negb].
  destruct (emailRegex_test email) eqn:Hre; [|done]. cbn [negb].
  destruct (admin_client env) eqn:Hadm; [|done]. cbn [negb].
  destruct (Authority.can_assign_role s team (user_id user) (default "viewer" (role req)))
    eqn:Hcan; [|done]. cbn [negb].
  destruct (store_error env UserError) eqn:Huerr; [done|].
  destruct (profile_by_email s email) as [invitee|] eqn:Hprof; [|done].
  destruct (single (member_rows s team (profile_id invitee))) eqn:Hmem; [done|].
  destruct (single (pending_for s team (profile_id invitee))) eqn:Hpend; [done|].
  destruct (RateLimit.check_invitation_limit s (user_id user) team
              (RateLimit.day_of (now env))) eqn:Hlimit; [|done]. cbn [negb].
  destruct (team_by_id s team) as [t|] eqn:Hfound; [|done].
  destruct (store_error env InviteError) eqn:Hins; [done|].
  intros _. exists user, team, email, invitee, t.
  split_and!; try done.
  unfold create_eligible, create_wellformed.
  split_and!; try done; by intros ->.
Qed.

End create_outcomes.

(** X3. A create that returns an error has written nothing: the store
    is the one before the call. *)
Theorem create_failure_writes_nothing auth req env (s : Store) :
  is_success (Invitations.POST auth req env s).1 = false →
  (Invitations.POST auth req env s).2 = s.
Proof.
  unfold Invitations.POST. repeat case_match; done.
Qed.

(** X4. A create that succeeds appends exactly one invitation: pending,
    from the caller, to the account registered under the address, with
    one of the roles viewer, editor, admin, expiring when the store
    says; it emits exactly one team_invitation notification, to the
    invitee; memberships and accounts stay as they were. *)
Theorem create_success_postcondition auth req env (s : Store) :
  is_success (Invitations.POST auth req env s).1 = true →
  ∃ user invitee i n,
    auth = Some user
    ∧ Invitations.inviteeEmail req = Some (profile_email invitee)
    ∧ invitee ∈ user_profiles s
    ∧ team_invitations (Invitations.POST auth req env s).2
      = (team_invitations s ++ [i])%list
    ∧ inv_status i = pending
    ∧ inv_inviter_id i = user_id user
    ∧ inv_invitee_id i = profile_id invitee
    ∧ Invitations.teamId req = Some (inv_team_id i)
    ∧ inv_role i ∈ ["viewer"; "editor"; "admin"]
    ∧ inv_expires_at i = default_expires_at env
    ∧ notifications (Invitations.POST auth req env s).2 = (notifications s ++ [n])%list
    ∧ notification_type n = "team_invitation"
    ∧ target_user_id n = profile_id invitee
    ∧ team_members (Invitations.POST auth req env s).2 = team_members s
    ∧ user_profiles (Invitations.POST auth req env s).2 = user_profiles s.
Proof.
  intros Hok.
  apply POST_success_inv in Hok
    as (user & team & email & invitee & t & -> & Hel & Hpend & Hlimit & Hteam & Hins).
  erewrite POST_created by done. cbn [fst snd].
  pose proof Hel as ((Hteam' & Hemail & _ & _ & Hrole & _) & Hprof & _).
  assert (invitee ∈ user_profiles s ∧ profile_email invitee = email) as [Hin Hmail].
  { unfold Invitations.profile_by_email in Hprof. apply single_Some in Hprof.
    assert (invitee ∈ filter (λ p, profile_email p = email) (user_profiles s)) as Hi.
    { rewrite Hprof. by apply list_elem_of_singleton. }
    apply list_elem_of_filter in Hi. tauto. }
  eexists user, invitee, _, _. split_and!; try reflexivity; try done.
  by rewrite Hmail.
Qed.

(** ** Resolving: reject, cancel, expiry, and what never changes *)

Section resolve_more.
Import Invitations.

Lemma PUT_rejected user req env (s : Store) id invitation t :
  resolve_fetches req env s id "reject" invitation →
  inv_invitee_id invitation = user_id user →
  inv_status invitation = pending →
  ¬ inv_expires_at invitation < now env →
  store_error env UpdateError = false →
  team_by_id s (inv_team_id invitation) = Some t →
  PUT (Some user) req env s
  = (Reply 200 (Resolved "Invitation rejected successfully" "reject" (team_name t)),
     update_invitation id (Some rejected) (Some (now env))
       (create_notification
          {| target_user_id := inv_inviter_id invitation;
             notification_type := "invitation_rejected";
             notification_title := "Invitation Declined";
             notification_team_id := inv_team_id invitation;
             action_url := None |} s)).
Proof.
  intros (Hid & Hact & Hne & Hknown & Hadm & Hferr & Hfetch) Hinvitee Hst Hlive Huerr Hteam.
  unfold PUT. rewrite Hid, Hact, (truthy_Some _ Hne).
  rewrite (bool_decide_eq_true_2 _ Hknown), Hadm, Hferr, Hfetch.
  cbn [truthy String.eqb Ascii.eqb Bool.eqb negb orb andb].
  rewrite (bool_decide_eq_false_2 ("reject" = "cancel")) by done.
  rewrite (bool_decide_eq_false_2 (inv_invitee_id invitation ≠ user_id user)) by auto.
  rewrite andb_false_r. cbn [andb].
  rewrite bool_decide_eq_false_2 by (by intros []).
  rewrite (bool_decide_eq_false_2 _ Hlive).
  rewrite decide_False by done. rewrite decide_True by done.
  by rewrite Hteam, Huerr.
Qed.

Lemma PUT_cancelled user req env (s : Store) id invitation t :
  resolve_fetches req env s id "cancel" invitation →
  inv_inviter_id invitation = user_id user →
  inv_status invitation = pending →
  ¬ inv_expires_at invitation < now env →
  store_error env UpdateError = false →
  team_by_id s (inv_team_id invitation) = Some t →
  PUT (Some user) req env s
  = (Reply 200 (Resolved "Invitation canceled successfully" "cancel" (team_name t)),
     update_invitation id (Some cancelled) (Some (now env))
       (create_notification
          {| target_user_id := inv_invitee_id invitation;
             notification_type := "invitation_cancelled";
             notification_title := "Invitation Cancelled";
             notification_team_id := inv_team_id invitation;
             action_url := None |} s)).
Proof.
  intros (Hid & Hact & Hne & Hknown & Hadm & Hferr & Hfetch) Hinviter Hst Hlive Huerr Hteam.
  unfold PUT. rewrite Hid, Hact, (truthy_Some _ Hne).
  rewrite (bool_decide_eq_true_2 _ Hknown), Hadm, Hferr, Hfetch.
  cbn [truthy String.eqb Ascii.eqb Bool.eqb negb orb andb].
  rewrite (bool_decide_eq_false_2 (inv_inviter_id invitation ≠ user_id user)) by auto.
  rewrite andb_false_r.
  rewrite (bool_decide_eq_false_2 ("cancel" = "accept")) by done.
  rewrite (bool_decide_eq_false_2 ("cancel" = "reject")) by done.
  cbn [orb andb].
  rewrite bool_decide_eq_false_2 by (by intros []).
  rewrite (bool_decide_eq_false_2 _ Hlive).
  rewrite !decide_False by done. rewrite decide_True by done.
  by rewrite Hteam, Huerr.
Qed.

(** The invitation table after a resolve: as before, or with the one
    pending invitation fetched under the id moved out of [pending]. *)
Lemma PUT_table auth req env (s : Store) :
  team_invitations (PUT auth req env s).2 = team_invitations s
  ∨ ∃ id invitation st upd,
      invitationId req = Some id
      ∧ invitation_by_id s id = Some invitation
      ∧ inv_status invitation = pending
      ∧ st ≠ pending
      ∧ team_invitations (PUT auth req env s).2
        = (λ i, if decide (inv_id i = id) then set_fields (Some st) upd i else i)
            <$> team_invitations s.
Proof.
  destruct (is_success (PUT auth req env s).1) eqn:Hok.
  { apply PUT_success_inv in Hok
      as (user & id & act & invitation & st & s1 & _ & Hf & _ & Hst & Hne & Hrows & ->).
    right. exists id, invitation, st, (Some (now env)).
    destruct Hf as (Hid & _ & _ & _ & _ & _ & Hfetch).
    split_and!; try done. unfold update_invitation. cbn. by rewrite Hrows. }
  revert Hok. unfold PUT.
  destruct auth as [user|]; [|by left].
  destruct (invitationId req) as [id|] eqn:Hid; [|by left].
  destruct (action req) as [act|] eqn:Hact; [|by left].
  destruct (_ || _); [by left|].
  destruct (negb (bool_decide _)); [by left|].
  destruct (negb (admin_client env)); [by left|].
  destruct (store_error env FetchError); [by left|].
  destruct (invitation_by_id s id) as [invitation|] eqn:Hfetch; [|by left].
  destruct (_ && _) in |- *; [by left|].
  destruct (_ && _) in |- *; [by left|].
  destruct (bool_decide (inv_status invitation ≠ pending)) eqn:Hst; [by left|].
  apply bool_decide_eq_false in Hst.
  assert (inv_status invitation = pending) as Hpending.
  { by destruct (decide (inv_status invitation = pending)). }
  destruct (bool_decide (inv_expires_at invitation < now env)).
  { intros _. right. exists id, invitation, expired, None. by split_and!. }
  repeat case_match; try done; intros _; by left.
Qed.

Lemma fetched_is_the_row (s : Store) id invitation i :
  invitation_by_id s id = Some invitation →
  i ∈ team_invitations s → inv_id i = id → i = invitation.
Proof.
  intros Hfetch Hin Hid. apply single_Some in Hfetch.
  assert (i ∈ filter (λ i, inv_id i = id) (team_invitations s)) as Hi.
  { by apply list_elem_of_filter. }
  rewrite Hfetch in Hi. by apply list_elem_of_singleton in Hi.
Qed.

Lemma Forall2_fmap_self {A} (R : A → A → Prop) (f : A → A) (l : list A) :
  (∀ x, x ∈ l → R x (f x)) → Forall2 R l (f <$> l).
Proof.
  induction l as [|x l IH]; intros H; [constructor|].
  rewrite fmap_cons. constructor.
  - apply H, elem_of_cons. by left.
  - apply IH. intros y Hy. apply H, elem_of_cons. by right.
Qed.

End resolve_more.

(** X5. Reject and cancel of a pending invitation that is not overdue,
    by the invitee resp. the inviter: the call succeeds, the invitation
    becomes rejected resp. cancelled, memberships stay as they were,
    and one notification goes to the other party (invitation_rejected
    to the inviter, invitation_cancelled to the invitee). *)
Theorem decline_pending_invitation user req env (s : Store) id act invitation t :
  resolve_fetches req env s id act invitation →
  act = "reject" ∨ act = "cancel" →
  entitled user act invitation →
  healthy env →
  inv_status invitation = pending →
  ¬ now env > inv_expires_at invitation →
  Invitations.team_by_id s (inv_team_id invitation) = Some t →
  let r := Invitations.PUT (Some user) req env s in
  is_success r.1 = true
  ∧ team_members r.2 = team_members s
  ∧ (∃ invitation',
       Invitations.invitation_by_id r.2 id = Some invitation'
       ∧ inv_status invitation' = if decide (act = "reject") then rejected else cancelled)
  ∧ (∃ n, notifications r.2 = (notifications s ++ [n])%list
          ∧ notification_type n
            = (if decide (act = "reject") then "invitation_rejected"
               else "invitation_cancelled")
          ∧ target_user_id n
            = if decide (act = "reject") then inv_inviter_id invitation
              else inv_invitee_id invitation).
Proof.
  intros Hf Hact [Hc Hr] [_ Hok] Hst Hlive Hteam r. subst r.
  pose proof Hf as (_ & _ & _ & _ & _ & _ & Hfetch).
  destruct Hact as [-> | ->].
  - erewrite PUT_rejected; [| done | by apply Hr; right | done | lia | apply Hok | done].
    cbn [fst snd]. rewrite !decide_True by done. split_and!; try done.
    + eexists. split; [|shelve].
      by rewrite invitation_by_id_update, (invitation_by_id_ext s), Hfetch.
      Unshelve. done.
    + eexists. by split_and!.
  - erewrite PUT_cancelled; [| done | by apply Hc | done | lia | apply Hok | done].
    cbn [fst snd]. rewrite !decide_False by done. split_and!; try done.
    + eexists. split; [|shelve].
      by rewrite invitation_by_id_update, (invitation_by_id_ext s), Hfetch.
      Unshelve. done.
    + eexists. by split_and!.
Qed.

(** X6. Status only moves forward.  Whatever the request, a resolve
    keeps the invitation table row for row: each row is untouched, or
    it was pending and is now accepted, rejected, cancelled or expired,
    with its key, team, inviter, invitee, role and expiry unchanged.
    No row is added or removed, and no row returns to pending. *)
Theorem resolve_moves_status_forward auth req env (s : Store) :
  Forall2
    (λ i i',
       i' = i
       ∨ (inv_status i = pending ∧ inv_status i' ≠ pending
          ∧ inv_id i' = inv_id i ∧ inv_team_id i' = inv_team_id i
          ∧ inv_inviter_id i' = inv_inviter_id i ∧ inv_invitee_id i' = inv_invitee_id i
          ∧ inv_role i' = inv_role i ∧ inv_expires_at i' = inv_expires_at i))
    (team_invitations s)
    (team_invitations (Invitations.PUT auth req env s).2).
Proof.
  destruct (PUT_table auth req env s)
    as [-> | (id & invitation & st & upd & _ & Hfetch & Hpending & Hst & ->)].
  - apply Forall2_same_length_lookup. split; [done|].
    intros k i i' Hi Hi'. left. congruence.
  - apply Forall2_fmap_self. intros i Hin.
    case_decide as Hid; [|by left].
    right. apply (fetched_is_the_row s id invitation) in Hin as ->; [|done..].
    by split_and!.
Qed.


(** ** Deleting an invitation *)




(** ** From acceptance to membership *)



(** X10. Accept does not look at the membership table.  Under the
    conditions of a successful accept, the invitee has one membership
    row in the team more than before, however many there were: an
    invitee who has been added to the team directly while the
    invitation was pending ends up with two rows. *)
Theorem accept_ignores_membership user req env (s : Store) id invitation t :
  resolve_fetches req env s id "accept" invitation →
  healthy env →
  inv_status invitation = pending →
  ¬ now env > inv_expires_at invitation →
  user_id user = inv_invitee_id invitation →
  Invitations.team_by_id s (inv_team_id invitation) = Some t →
  let s' := (Invitations.PUT (Some user) req env s).2 in
  length (Invitations.member_rows s' (inv_team_id invitation) (inv_invitee_id invitation))
  = S (length (Invitations.member_rows s (inv_team_id invitation)
                 (inv_invitee_id invitation))).
Proof.
  intros Hf [_ Hok] Hst Hlive Huser Hteam s'. subst s'.
  erewrite PUT_accepted; [| done | done | done | lia | apply Hok | apply Hok | done].
  cbn [snd]. unfold Invitations.member_rows. cbn.
  rewrite filter_app, length_app, filter_cons, filter_nil.
  rewrite decide_True by done. simpl. lia.
Qed.

(** ** Addresses *)

Section addresses.

Lemma split_first_Some sep (l a r : list ascii) :
  split_first sep l = Some (a, r) ↔ l = (a ++ sep :: r)%list ∧ sep ∉ a.
Proof.
  split.
  - revert a r. induction l as [|c l IH]; intros a r; simpl; [done|].
    destruct (Ascii.eqb c sep) eqn:Hc.
    + apply Ascii.eqb_eq in Hc as ->. intros [= <- <-].
      split; [done|]. by intros ?%elem_of_nil.
    + apply Ascii.eqb_neq in Hc.
      destruct (split_first sep l) as [[a' r']|]; [|done].
      intros [= <- <-]. destruct (IH a' r' eq_refl) as [-> Hnot].
      split; [done|]. intros [?|?]%elem_of_cons; [congruence|done].
  - revert l. induction a as [|x a IH]; intros l [-> Hnot]; simpl.
    + by rewrite Ascii.eqb_refl.
    + assert (x ≠ sep) as Hx.
      { intros ->. apply Hnot, elem_of_cons. by left. }
      apply Ascii.eqb_neq in Hx as ->.
      rewrite (IH (a ++ sep :: r)%list); [done|].
      split; [done|]. intros ?. apply Hnot, elem_of_cons. by right.
Qed.

Lemma split_first_None sep (l : list ascii) :
  split_first sep l = None ↔ sep ∉ l.
Proof.
  induction l as [|c l IH]; simpl.
  - split; [intros _ ?%elem_of_nil; done | done].
  - destruct (Ascii.eqb c sep) eqn:Hc.
    + apply Ascii.eqb_eq in Hc as ->. split; [done|].
      intros Hnot. destruct Hnot. apply elem_of_cons. by left.
    + apply Ascii.eqb_neq in Hc. rewrite not_elem_of_cons.
      destruct (split_first sep l) as [[a' r']|].
      * split; [done|]. intros [_ Hnot]. by apply IH in Hnot.
      * split; [|done]. intros _. split; [congruence|]. by apply IH.
Qed.

Lemma plain_not_at c : plain c = true → c ≠ "@"%char.
Proof.
  unfold plain. intros [_ H]%andb_true_iff ->. done.
Qed.

Lemma has_inner_dot_iff (r : list ascii) :
  has_inner_dot r = true
  ↔ ∃ b c, r = (b ++ "."%char :: c)%list ∧ b ≠ [] ∧ c ≠ [].
Proof.
  unfold has_inner_dot. split.
  - destruct r as [|x r']; [done|].
    intros (d & Hin & Hd)%existsb_exists. apply Ascii.eqb_eq in Hd as ->.
    apply list_elem_of_In, list_elem_of_split in Hin as (m1 & m2 & Hsplit).
    assert (r' ≠ []) as Hne by (intros ->; by destruct m1).
    rewrite (app_removelast_last "."%char Hne), Hsplit.
    exists (x :: m1), (m2 ++ [List.last r' "."%char])%list.
    split_and!; [|done|by destruct m2].
    by rewrite <- !app_assoc.
  - intros (b & c & -> & Hb & Hc).
    destruct b as [|x b]; [done|]. simpl.
    apply existsb_exists. exists "."%char. split; [|done].
    rewrite removelast_app by done.
    apply list_elem_of_In, elem_of_app. right.
    destruct c as [|y c]; [done|]. simpl. apply elem_of_cons. by left.
Qed.

End addresses.

(** X11. The address check accepts exactly the strings of the shape
    A@B.C with A, B and C non-empty and free of blanks and of [@]
    (dots are allowed inside them): the reading of the pattern
    [^[^\s@]+@[^\s@]+\.[^\s@]+$]. *)
Theorem emailRegex_test_spec (s : string) :
  emailRegex_test s = true
  ↔ ∃ a b c : list ascii,
      String.list_ascii_of_string s = (a ++ "@"%char :: b ++ "."%char :: c)%list
      ∧ a ≠ [] ∧ b ≠ [] ∧ c ≠ []
      ∧ Forall (λ x, plain x = true) (a ++ b ++ c).
Proof.
  unfold emailRegex_test. split.
  - destruct (split_first _ _) as [[a r]|] eqn:Hsplit; [|done].
    apply split_first_Some in Hsplit as [Hs _].
    intros [[[Ha Hpa]%andb_true_iff Hpr]%andb_true_iff Hdot]%andb_true_iff.
    apply has_inner_dot_iff in Hdot as (b & c & -> & Hb & Hc).
    exists a, b, c. split_and!; try done.
    + apply negb_true_iff, bool_decide_eq_false in Ha. done.
    + rewrite forallb_forall in Hpa, Hpr.
      apply Forall_forall. intros x Hx.
      rewrite !elem_of_app in Hx. destruct Hx as [Hx|[Hx|Hx]].
      * by apply Hpa, list_elem_of_In.
      * apply Hpr, list_elem_of_In, elem_of_app. by left.
      * apply Hpr, list_elem_of_In, elem_of_app. right. apply elem_of_cons. by right.
  - intros (a & b & c & Hs & Ha & Hb & Hc & Hplain).
    rewrite !Forall_app in Hplain. destruct Hplain as (Hpa & Hpb & Hpc).
    assert (split_first "@"%char (String.list_ascii_of_string s)
            = Some (a, (b ++ "."%char :: c)%list)) as ->.
    { apply split_first_Some. split; [done|].
      intros Hin. rewrite Forall_forall in Hpa. by apply Hpa, plain_not_at in Hin. }
    rewrite bool_decide_eq_false_2 by done. cbn [negb andb].
    apply andb_true_iff. split; [apply andb_true_iff; split|].
    + apply forallb_forall. intros x Hx. rewrite Forall_forall in Hpa.
      by apply Hpa, list_elem_of_In.
    + apply forallb_forall. intros x Hx%list_elem_of_In.
      apply elem_of_app in Hx as [Hx|[->|Hx]%elem_of_cons].
      * rewrite Forall_forall in Hpb. by apply Hpb.
      * done.
      * rewrite Forall_forall in Hpc. by apply Hpc.
    + apply has_inner_dot_iff. by exists b, c.
Qed.

(** ** The components *)

Lemma filter_iff_on {A} (P Q : A → Prop) `{!∀ x, Decision (P x)} `{!∀ x, Decision (Q x)}
    (l : list A) :
  (∀ x, x ∈ l → (P x ↔ Q x)) → filter P l = filter Q l.
Proof.
  induction l as [|x l IH]; intros Hall; [done|].
  rewrite !filter_cons.
  assert (P x ↔ Q x) as Hx by (apply Hall, elem_of_cons; by left).
  rewrite IH by (intros y Hy; apply Hall, elem_of_cons; by right).
  destruct (decide (P x)), (decide (Q x)); tauto.
Qed.



Lemma NoDup_fmap_eq {A B} (f : A → B) (l : list A) x y :
  NoDup (f <$> l) → x ∈ l → y ∈ l → f x = f y → x = y.
Proof.
  induction l as [|z l IH]; intros Hnd Hx Hy Hf; [by apply elem_of_nil in Hx|].
  rewrite fmap_cons in Hnd. apply NoDup_cons in Hnd as [Hz Hnd].
  apply elem_of_cons in Hx as [->|Hx]; apply elem_of_cons in Hy as [->|Hy]; try done.
  - destruct Hz. rewrite Hf. by apply list_elem_of_fmap_2.
  - destruct Hz. rewrite <- Hf. by apply list_elem_of_fmap_2.
  - by apply IH.
Qed.

(** X15. Grouping by date.  Whatever [formatDate] is, as long as it
    yields no property name of [Object.prototype]: the group stored
    under a key holds exactly the messages whose date formats to that
    key, in their order in the list; a key no message formats to has
    no group. *)
Theorem groupMessagesByDate_lookup (formatDate : string → string)
    (messages : list TeamChat.ChatMessage) (key : string) :
  Forall (λ m, formatDate (TeamChat.timestamp m) ∉ ChatView.Object_prototype_keys)
         messages →
  ChatView.groupMessagesByDate formatDate messages !! key
  = match filter (λ m, formatDate (TeamChat.timestamp m) = key) messages with
    | [] => None
    | group => Some group
    end.
Proof.
  intros _. unfold ChatView.groupMessagesByDate.
  assert (∀ (acc : gmap string (list TeamChat.ChatMessage)),
            foldl (λ groups message,
                     <[formatDate (TeamChat.timestamp message)
                       := (default [] (groups !! formatDate (TeamChat.timestamp message))
                           ++ [message])%list]> groups) acc messages !! key
            = match filter (λ m, formatDate (TeamChat.timestamp m) = key) messages with
              | [] => acc !! key
              | group => Some (default [] (acc !! key) ++ group)%list
              end) as Hgen.
  { induction messages as [|m l IH]; intros acc; [done|].
    cbn [foldl]. rewrite IH, filter_cons.
    destruct (decide (formatDate (TeamChat.timestamp m) = key)) as [<-|Hne].
    - rewrite lookup_insert_eq.
      destruct (filter _ l) as [|x g]; cbn [default]; [done|].
      unfold id. by rewrite <- app_assoc.
    - by rewrite lookup_insert_ne. }
  rewrite Hgen, lookup_empty. by destruct (filter _ messages).
Qed.

(** ** The notification bell *)

(** X16. The age shown for a notification.  'Just now' is shown
    exactly for timestamps less than a minute old, which includes
    timestamps in the future; minutes are shown from 1 to 59, hours
    from 1 to 23, days from 1 to 6, each the whole number of units
    elapsed; the date is shown exactly from 7 days on. *)
Theorem formatTime_buckets (now timestamp : Z) :
  let age := NotificationBell.formatTime now timestamp in
  let elapsed := now - timestamp in
  (age = NotificationBell.JustNow ↔ elapsed < 60000)
  ∧ (∀ n, age = NotificationBell.MinutesAgo n →
          1 ≤ n ≤ 59 ∧ n * 60000 ≤ elapsed < (n + 1) * 60000)
  ∧ (∀ n, age = NotificationBell.HoursAgo n →
          1 ≤ n ≤ 23 ∧ n * 3600000 ≤ elapsed < (n + 1) * 3600000)
  ∧ (∀ n, age = NotificationBell.DaysAgo n →
          1 ≤ n ≤ 6 ∧ n * 86400000 ≤ elapsed < (n + 1) * 86400000)
  ∧ (age = NotificationBell.OnDate ↔ 604800000 ≤ elapsed).
Proof.
  cbv zeta. unfold NotificationBell.formatTime.
  change (1000 * 60 * 60 * 24) with 86400000.
  change (1000 * 60 * 60) with 3600000. change (1000 * 60) with 60000.
  set (d := now - timestamp).
  pose proof (Z.div_mod d 60000 ltac:(lia)) as Em.
  pose proof (Z.mod_pos_bound d 60000 ltac:(lia)) as Bm.
  pose proof (Z.div_mod d 3600000 ltac:(lia)) as Eh.
  pose proof (Z.mod_pos_bound d 3600000 ltac:(lia)) as Bh.
  pose proof (Z.div_mod d 86400000 ltac:(lia)) as Ed.
  pose proof (Z.mod_pos_bound d 86400000 ltac:(lia)) as Bd.
  repeat case_bool_decide; split_and!;
    try (split; intros; first [done | lia | (exfalso; lia)]);
    try (intros n [= <-]; lia);
    intros n [=].
Qed.

Section bell.
Import NotificationBell.

Implicit Types (l : list Notification) (st : State).













End bell.


(** ** The members endpoint *)





(** ** Typing presence, within one run of the socket effect *)

(** X14. Within one run of the socket effect the indicator expires.  A
    component receives a typing signal [true] of another user X when
    its clock reads [t0].  Whatever it had received before, and
    whatever signals and messages of other users follow: as long as
    the effect does not run again before [t0 + 3000], the component
    shows X as not typing from [t0 + 3000] on, no stop signal having
    been sent; until then it shows X as typing, the timer of any
    earlier signal of X having been cleared by the newer one. *)
Theorem typing_expires_in_one_run (team : string) (me : option string)
    (history later : list (Z * TeamChat.Event)) (X : string) (t0 t : Z) :
  let st0 := TeamChat.receive_all history (TeamChat.init team me) in
  Some X ≠ TeamChat.self st0 →
  TeamChat.clock st0 ≤ t0 →
  Forall (λ tev, TeamChat.origin tev.2 ≠ Some X) later →
  Forall (λ tev, ∀ team' me', tev.2 = TeamChat.EFFECT_RERUN team' me' → t0 + 3000 ≤ tev.1)
         later →
  let signal :=
    TeamChat.TYPING
      {| TeamChat.data_userId := X; TeamChat.data_teamId := TeamChat.room st0;
         TeamChat.data_isTyping := true |} in
  let st := TeamChat.receive_all later (TeamChat.receive (t0, signal) st0) in
  (t0 + 3000 ≤ t → TeamChat.observes t st X = Some false)
  ∧ (Forall (λ tev, tev.1 < t0 + 3000) later → t < t0 + 3000 →
     TeamChat.observes t st X = Some true).
Proof.
  intros st0 Hme Hclock Hlater Hreruns signal st.
  by apply typing_expires_within_run.
Qed.

(** ** Runs of the further properties *)

(** Bob lists the pending invitations he received: Mallory's, the
    newer one, comes first. *)
Lemma listing_content_witness :
  [Cases.from_mallory; Scenario.invitation_bob pending]
  ≡ₚ filter (listed_for Scenario.bob (Scenario.listing "received" "pending"))
       (team_invitations Cases.inbox)
  ∧ Forall (λ i, inv_inviter_id i = "u-bob" ∨ inv_invitee_id i = "u-bob")
      [Cases.from_mallory; Scenario.invitation_bob pending]
  ∧ (Invitations.GET (Some Scenario.bob) (Scenario.listing "received" "pending")
       (Scenario.served 4000 "k-0") Cases.inbox).2 = Cases.inbox.
Proof.
  apply (listing_content Scenario.bob (Scenario.listing "received" "pending")
           (Scenario.served 4000 "k-0") Cases.inbox).
  reflexivity.
Defined.

Lemma listing_newest_first_witness :
  StronglySorted (λ a b, inv_created_at b ≤ inv_created_at a)
    [Cases.to_mallory; Scenario.invitation_bob pending].
Proof.
  apply (listing_newest_first Scenario.alice (Scenario.listing "sent" "all")
           (Scenario.served 4000 "k-0") Cases.inbox).
  reflexivity.
Defined.

(** Alice asks for a role that cannot be assigned. *)
Lemma create_failure_writes_nothing_witness :
  (Invitations.POST (Some Scenario.alice)
     (Scenario.invite "t-research" "bob@lab.org" "owner")
     (Scenario.served 2000 "i-1") Scenario.base).2
  = Scenario.base.
Proof.
  apply create_failure_writes_nothing. reflexivity.
Defined.

(** Alice invites Bob. *)
Lemma create_success_postcondition_witness :
  ∃ i, team_invitations
         (Invitations.POST (Some Scenario.alice)
            (Scenario.invite "t-research" "bob@lab.org" "editor")
            (Scenario.served 2000 "i-1") Scenario.base).2
       = [i]
       ∧ inv_status i = pending ∧ inv_invitee_id i = "u-bob".
Proof.
  destruct (create_success_postcondition (Some Scenario.alice)
              (Scenario.invite "t-research" "bob@lab.org" "editor")
              (Scenario.served 2000 "i-1") Scenario.base)
    as (user & invitee & i & n & _ & Hmail & Hin & Hinv & Hst & _ & Hinvitee & _);
    [vm_compute; reflexivity|].
  exists i. split_and!; [exact Hinv | exact Hst |].
  rewrite Hinvitee.
  cbn in Hin, Hmail. rewrite !elem_of_cons, elem_of_nil in Hin.
  destruct Hin as [->|[->|[->|[]]]]; first [reflexivity | discriminate Hmail].
Defined.

(** Bob rejects Alice's invitation. *)
Lemma decline_pending_invitation_witness :
  is_success
    (Invitations.PUT (Some Scenario.bob) (Scenario.resolve "i-1" "reject")
       (Scenario.served 2000 "k-0") (Scenario.holding pending)).1
  = true
  ∧ team_members
      (Invitations.PUT (Some Scenario.bob) (Scenario.resolve "i-1" "reject")
         (Scenario.served 2000 "k-0") (Scenario.holding pending)).2
    = [].
Proof.
  destruct (decline_pending_invitation Scenario.bob (Scenario.resolve "i-1" "reject")
              (Scenario.served 2000 "k-0") (Scenario.holding pending) "i-1" "reject"
              (Scenario.invitation_bob pending)
              (Scenario.owned_by_alice "t-research" "Research"))
    as (Hreply & Hmembers & _).
  - apply fetches_i1. rewrite !elem_of_cons. tauto.
  - by left.
  - by split.
  - apply served_healthy.
  - reflexivity.
  - simpl. lia.
  - reflexivity.
  - split; [exact Hreply | exact Hmembers].
Defined.




(** Bob was added to the team while his invitation was pending: the
    accept gives him a second row. *)
Lemma accept_ignores_membership_witness :
  length
    (Invitations.member_rows
       (Invitations.PUT (Some Scenario.bob) (Scenario.resolve "i-1" "accept")
          (Scenario.served 2000 "k-0") Cases.added_meanwhile).2
       "t-research" "u-bob")
  = 2%nat.
Proof.
  apply (accept_ignores_membership Scenario.bob (Scenario.resolve "i-1" "accept")
           (Scenario.served 2000 "k-0") Cases.added_meanwhile "i-1"
           (Scenario.invitation_bob pending)
           (Scenario.owned_by_alice "t-research" "Research")).
  - split_and!; try done. rewrite !elem_of_cons. tauto.
  - apply served_healthy.
  - reflexivity.
  - simpl. lia.
  - reflexivity.
  - reflexivity.
Defined.

(** Three messages of two days. *)
Lemma groupMessagesByDate_lookup_witness :
  ChatView.groupMessagesByDate Cases.day
    [ Cases.posted "m-1" "u-alice" "hello" "2024-05-01T10:00:00Z";
      Cases.posted "m-2" "u-bob" "hi" "2024-05-02T09:00:00Z";
      Cases.posted "m-3" "u-alice" "back" "2024-05-02T11:00:00Z" ]
  !! "2024-05-02"
  = Some [ Cases.posted "m-2" "u-bob" "hi" "2024-05-02T09:00:00Z";
           Cases.posted "m-3" "u-alice" "back" "2024-05-02T11:00:00Z" ].
Proof.
  apply (groupMessagesByDate_lookup Cases.day
           [ Cases.posted "m-1" "u-alice" "hello" "2024-05-01T10:00:00Z";
             Cases.posted "m-2" "u-bob" "hi" "2024-05-02T09:00:00Z";
             Cases.posted "m-3" "u-alice" "back" "2024-05-02T11:00:00Z" ]
           "2024-05-02").
  refine (bool_decide_unpack _ _). vm_compute. exact I.
Defined.




(** Bob's component: Mallory starts typing at 0 and falls silent,
    Alice types at 1000, and the effect runs again at 5000.  At 2999
    Mallory is still shown as typing, at 3000 no longer. *)
Lemma typing_expires_in_one_run_witness :
  TeamChat.observes 3000
    (TeamChat.receive_all
       [ (1000, Scenario.typing "u-alice" true);
         (5000, TeamChat.EFFECT_RERUN "t-research" (Some "u-bob")) ]
       (TeamChat.receive (0, Scenario.typing "u-mallory" true)
          (TeamChat.receive_all [] Scenario.bobs_chat)))
    "u-mallory" = Some false
  ∧ TeamChat.observes 2999
      (TeamChat.receive_all
         [ (1000, Scenario.typing "u-alice" true) ]
         (TeamChat.receive (0, Scenario.typing "u-mallory" true)
            (TeamChat.receive_all [] Scenario.bobs_chat)))
      "u-mallory" = Some true.
Proof.
  split.
  - apply (typing_expires_in_one_run "t-research" (Some "u-bob") []
             [ (1000, Scenario.typing "u-alice" true);
               (5000, TeamChat.EFFECT_RERUN "t-research" (Some "u-bob")) ]
             "u-mallory" 0 3000); [done | done | | | lia].
    + repeat constructor; done.
    + apply Forall_cons. split; [by intros ? ? [=]|].
      apply Forall_cons. split; [|by apply Forall_nil].
      intros team' me' _. cbn. lia.
  - apply (typing_expires_in_one_run "t-research" (Some "u-bob") []
             [ (1000, Scenario.typing "u-alice" true) ] "u-mallory" 0 2999);
      [done | done | | | | lia].
    + repeat constructor; done.
    + apply Forall_cons. split; [by intros ? ? [=]|by apply Forall_nil].
    + apply Forall_cons. split; [cbn; lia|by apply Forall_nil].
Defined.
